(** * LawVault: the on-chain record state machine and the off-chain
      fingerprint and payload cipher.

    The development starts with three parts, one per source unit:
    - [LawVault]: the Solidity contract [LawVault] (records, the two-step
      approval state machine, the party indexes, the FHE access grants);
    - [TextHash]: [calculateTextHash] of the frontend crypto utility;
    - [Payload]: [encryptText] / [decryptText] of the same utility.

    Parts IV to VI add further properties of these three units, and part VII
    models the contract list of the frontend ([loadContracts] and the two
    approval handlers) over the contract's state.  *)

From Stdlib Require Import ZArith NArith List Lia Sorted.
From Stdlib Require Strings.Byte.
From stdpp Require Import gmap strings list sorting pretty.

Set Default Proof Using "Type".

(* ===================================================================== *)
(** * Part I: the contract [LawVault]                                     *)
(* ===================================================================== *)

Module LawVault.

Local Open Scope N_scope.

(** ** Solidity value types *)

Abbreviation address := N (only parsing).
Abbreviation uint256 := N (only parsing).
Abbreviation bytes := (list Byte.byte) (only parsing).

(** [euint32] and [externalEuint32] are opaque ciphertext handles. *)
Abbreviation euint32 := N (only parsing).
Abbreviation externalEuint32 := N (only parsing).

Definition MAX_UINT256 : N := 2 ^ 256 - 1.

(** The FHE library is an external collaborator.  [fromExternal] checks the
    input proof for the caller and yields the internal handle, or reverts
    ([None]); it is a function of the caller, the external handle and the
    proof.  The two grant entry points, [FHE.allowThis] (to the contract
    itself) and [FHE.allow] (to an address), are recorded as calls. *)
Class FHE := {
  fromExternal : address -> externalEuint32 -> bytes -> option euint32
}.

Inductive FheCall :=
| AllowThis (h : euint32)
| Allow (h : euint32) (who : address).

Inductive ContractStatus :=
| PendingClientApproval
| PendingLawyerFinalConfirmation
| Completed.

#[global] Instance ContractStatus_eq_dec : EqDecision ContractStatus.
Proof. solve_decision. Defined.

Record Contract := mkContract {
  id : uint256;
  title : string;
  encryptedContent : euint32;
  lawyer : address;
  client : address;
  status : ContractStatus;
  createdAt : uint256;
  clientApprovedAt : uint256;
  lawyerConfirmedAt : uint256;
  exists_ : bool
}.

(** The value every slot of [mapping(uint256 => Contract)] holds before it
    is written. *)
Definition zeroContract : Contract :=
  mkContract 0 "" 0 0 0 PendingClientApproval 0 0 0 false.

Inductive Event :=
| ContractCreated (contractId : uint256) (lawyer client : address)
                  (title : string) (timestamp : uint256)
| ClientApproved (contractId : uint256) (client : address) (timestamp : uint256)
| LawyerConfirmed (contractId : uint256) (lawyer : address) (timestamp : uint256).

(** Contract storage, together with the two outward effects of a
    transaction: the grant calls made to the FHE library and the emitted
    events. *)
Record State := mkState {
  contracts : gmap N Contract;
  clientContracts : gmap N (list uint256);
  lawyerContracts : gmap N (list uint256);
  totalContracts : uint256;
  fheCalls : list FheCall;
  events : list Event
}.

Definition initState : State := mkState ∅ ∅ ∅ 0 [] [].

(** [msg.sender] and [block.timestamp]. *)
Record Msg := mkMsg { sender : address; timestamp : uint256 }.

(** ** Execution monad: state passing with revert and panic *)

Inductive result (A : Type) :=
| Ok (a : A)
| Revert (reason : string)
| Panic (code : N).
Arguments Ok {A} a.
Arguments Revert {A} reason.
Arguments Panic {A} code.

Definition M (A : Type) := State -> result (A * State).

#[global] Instance M_ret : MRet M := fun A a s => Ok (a, s).

#[global] Instance M_bind : MBind M := fun A B k m s =>
  match m s with
  | Ok (a, s') => k a s'
  | Revert r => Revert r
  | Panic c => Panic c
  end.

Definition require (cond : bool) (reason : string) : M unit :=
  fun s => if cond then Ok (tt, s) else Revert reason.

Definition gets {A} (f : State -> A) : M A := fun s => Ok (f s, s).

Definition modify (f : State -> State) : M unit := fun s => Ok (tt, f s).

(** ** Storage accessors *)

(** [contracts[contractId]] read through a storage pointer. *)
Definition contract_at (s : State) (contractId : uint256) : Contract :=
  default zeroContract (contracts s !! contractId).

Definition ids_of (m : gmap N (list uint256)) (a : address) : list uint256 :=
  default [] (m !! a).

Definition set_contract (contractId : uint256) (c : Contract) (s : State) : State :=
  mkState (<[contractId := c]> (contracts s)) (clientContracts s)
          (lawyerContracts s) (totalContracts s) (fheCalls s) (events s).

Definition set_totalContracts (n : uint256) (s : State) : State :=
  mkState (contracts s) (clientContracts s) (lawyerContracts s) n
          (fheCalls s) (events s).

Definition push_client (a : address) (contractId : uint256) (s : State) : State :=
  mkState (contracts s)
          (<[a := ids_of (clientContracts s) a ++ [contractId]]> (clientContracts s))
          (lawyerContracts s) (totalContracts s) (fheCalls s) (events s).

Definition push_lawyer (a : address) (contractId : uint256) (s : State) : State :=
  mkState (contracts s) (clientContracts s)
          (<[a := ids_of (lawyerContracts s) a ++ [contractId]]> (lawyerContracts s))
          (totalContracts s) (fheCalls s) (events s).

Definition fhe_call (c : FheCall) (s : State) : State :=
  mkState (contracts s) (clientContracts s) (lawyerContracts s)
          (totalContracts s) (fheCalls s ++ [c]) (events s).

Definition emit (e : Event) : M unit :=
  modify (fun s => mkState (contracts s) (clientContracts s) (lawyerContracts s)
                           (totalContracts s) (fheCalls s) (events s ++ [e])).

Definition with_status (st : ContractStatus) (c : Contract) : Contract :=
  mkContract (id c) (title c) (encryptedContent c) (lawyer c) (client c) st
             (createdAt c) (clientApprovedAt c) (lawyerConfirmedAt c) (exists_ c).

Definition with_clientApprovedAt (t : uint256) (c : Contract) : Contract :=
  mkContract (id c) (title c) (encryptedContent c) (lawyer c) (client c) (status c)
             (createdAt c) t (lawyerConfirmedAt c) (exists_ c).

Definition with_lawyerConfirmedAt (t : uint256) (c : Contract) : Contract :=
  mkContract (id c) (title c) (encryptedContent c) (lawyer c) (client c) (status c)
             (createdAt c) (clientApprovedAt c) t (exists_ c).

(** A field write through the storage pointer [contractData]. *)
Definition update_contract (contractId : uint256) (f : Contract -> Contract) : M unit :=
  modify (fun s => set_contract contractId (f (contract_at s contractId)) s).

(** [totalContracts++] under checked arithmetic (Solidity 0.8): overflow
    panics with code 0x11. *)
Definition increment_totalContracts : M unit :=
  fun s => if (totalContracts s <? MAX_UINT256)%N
           then Ok (tt, set_totalContracts (totalContracts s + 1) s)
           else Panic 17.

Section Operations.
Context `{FHE}.

Definition FHE_fromExternal (caller : address) (e : externalEuint32) (proof : bytes)
  : M euint32 :=
  fun s => match fromExternal caller e proof with
           | Some h => Ok (h, s)
           | None => Revert "FHE: invalid input proof"
           end.

Definition FHE_allowThis (h : euint32) : M unit := modify (fhe_call (AllowThis h)).
Definition FHE_allow (h : euint32) (who : address) : M unit :=
  modify (fhe_call (Allow h who)).

(** ** The contract's functions *)

Definition createContract (msg : Msg) (title : string) (client : address)
    (encryptedContent : externalEuint32) (inputProof : bytes) : M uint256 :=
  require (negb (client =? 0)%N) "Client address cannot be zero";;
  require (negb (client =? sender msg)%N) "Lawyer and client cannot be the same";;
  require (0 <? String.length title)%nat "Title cannot be empty";;
  contractId ← gets totalContracts;
  increment_totalContracts;;
  encryptedEuint32 ← FHE_fromExternal (sender msg) encryptedContent inputProof;
  FHE_allowThis encryptedEuint32;;
  modify (set_contract contractId
            (mkContract contractId title encryptedEuint32 (sender msg) client
                        PendingClientApproval (timestamp msg) 0 0 true));;
  modify (push_client client contractId);;
  modify (push_lawyer (sender msg) contractId);;
  emit (ContractCreated contractId (sender msg) client title (timestamp msg));;
  mret contractId.

Definition clientApprove (msg : Msg) (contractId : uint256) : M unit :=
  contractData ← gets (fun s => contract_at s contractId);
  require (exists_ contractData) "Contract does not exist";;
  require (client contractData =? sender msg)%N "Only client can approve";;
  require (bool_decide (status contractData = PendingClientApproval))
          "Contract not in pending client approval status";;
  update_contract contractId (with_status PendingLawyerFinalConfirmation);;
  update_contract contractId (with_clientApprovedAt (timestamp msg));;
  emit (ClientApproved contractId (sender msg) (timestamp msg)).

Definition lawyerConfirm (msg : Msg) (contractId : uint256) : M unit :=
  contractData ← gets (fun s => contract_at s contractId);
  require (exists_ contractData) "Contract does not exist";;
  require (lawyer contractData =? sender msg)%N "Only lawyer can confirm";;
  require (bool_decide (status contractData = PendingLawyerFinalConfirmation))
          "Contract not in pending lawyer confirmation status";;
  update_contract contractId (with_status Completed);;
  update_contract contractId (with_lawyerConfirmedAt (timestamp msg));;
  enc ← gets (fun s => encryptedContent (contract_at s contractId));
  l ← gets (fun s => lawyer (contract_at s contractId));
  FHE_allow enc l;;
  c ← gets (fun s => client (contract_at s contractId));
  FHE_allow enc c;;
  emit (LawyerConfirmed contractId (sender msg) (timestamp msg)).

Definition getContract (contractId : uint256)
  : M (string * address * address * ContractStatus * uint256 * uint256 * uint256) :=
  contractData ← gets (fun s => contract_at s contractId);
  require (exists_ contractData) "Contract does not exist";;
  mret (title contractData, lawyer contractData, client contractData,
       status contractData, createdAt contractData,
       clientApprovedAt contractData, lawyerConfirmedAt contractData).

Definition getEncryptedContent (msg : Msg) (contractId : uint256) : M euint32 :=
  contractData ← gets (fun s => contract_at s contractId);
  require (exists_ contractData) "Contract does not exist";;
  require (bool_decide (status contractData = Completed))
          "Contract must be completed to access content";;
  require ((sender msg =? lawyer contractData)%N || (sender msg =? client contractData)%N)
          "Only lawyer or client can access content";;
  mret (encryptedContent contractData).

Definition getClientContracts (client : address) : M (list uint256) :=
  gets (fun s => ids_of (clientContracts s) client).

Definition getLawyerContracts (lawyer : address) : M (list uint256) :=
  gets (fun s => ids_of (lawyerContracts s) lawyer).

Definition contractExists (contractId : uint256) : M bool :=
  gets (fun s => exists_ (contract_at s contractId)).

(** ** Transactions

    The three state-changing entry points, as the events of the state
    machine.  A transaction commits the state its body produced, or, when
    the body reverts or panics, leaves the state it started from. *)

Inductive Call :=
| CreateContract (title : string) (client : address)
                 (encryptedContent : externalEuint32) (inputProof : bytes)
| ClientApprove (contractId : uint256)
| LawyerConfirm (contractId : uint256).

Definition run_call (msg : Msg) (c : Call) : M unit :=
  match c with
  | CreateContract t cl e p => createContract msg t cl e p;; mret tt
  | ClientApprove i => clientApprove msg i
  | LawyerConfirm i => lawyerConfirm msg i
  end.

Definition transact {A} (m : M A) (s : State) : State :=
  match m s with
  | Ok (_, s') => s'
  | _ => s
  end.

Definition succeeds {A} (m : M A) (s : State) : bool :=
  match m s with
  | Ok _ => true
  | _ => false
  end.

Definition step (msg : Msg) (c : Call) (s : State) : State :=
  transact (run_call msg c) s.

Fixpoint run (tr : list (Msg * Call)) (s : State) : State :=
  match tr with
  | [] => s
  | (msg, c) :: tr' => run tr' (step msg c s)
  end.

Inductive reachable : State -> Prop :=
| reachable_init : reachable initState
| reachable_step s msg c : reachable s -> reachable (step msg c s).

End Operations.

(** The identity-proof FHE instance: every input proof verifies and the
    internal handle is the external one. *)
Definition trustingFHE : FHE := {| fromExternal := fun _ e _ => Some e |}.

(** ** Closed forms of the three transitions *)

Section Transitions.
Context `{FHE}.

Definition created (msg : Msg) (t : string) (cl : address) (h : euint32) (s : State)
  : State :=
  mkState
    (<[totalContracts s :=
         mkContract (totalContracts s) t h (sender msg) cl
                    PendingClientApproval (timestamp msg) 0 0 true]> (contracts s))
    (<[cl := ids_of (clientContracts s) cl ++ [totalContracts s]]> (clientContracts s))
    (<[sender msg := ids_of (lawyerContracts s) (sender msg) ++ [totalContracts s]]>
       (lawyerContracts s))
    (totalContracts s + 1)
    (fheCalls s ++ [AllowThis h])
    (events s ++ [ContractCreated (totalContracts s) (sender msg) cl t (timestamp msg)]).

Definition approved (msg : Msg) (i : uint256) (s : State) : State :=
  mkState
    (<[i := with_clientApprovedAt (timestamp msg)
              (with_status PendingLawyerFinalConfirmation (contract_at s i))]>
       (contracts s))
    (clientContracts s) (lawyerContracts s) (totalContracts s) (fheCalls s)
    (events s ++ [ClientApproved i (sender msg) (timestamp msg)]).

Definition confirmed (msg : Msg) (i : uint256) (s : State) : State :=
  mkState
    (<[i := with_lawyerConfirmedAt (timestamp msg)
              (with_status Completed (contract_at s i))]> (contracts s))
    (clientContracts s) (lawyerContracts s) (totalContracts s)
    (fheCalls s ++ [Allow (encryptedContent (contract_at s i)) (lawyer (contract_at s i));
                    Allow (encryptedContent (contract_at s i)) (client (contract_at s i))])
    (events s ++ [LawyerConfirmed i (sender msg) (timestamp msg)]).

Lemma contract_at_set i c s : contract_at (set_contract i c s) i = c.
Proof. unfold contract_at, set_contract; simpl. by rewrite lookup_insert_eq. Qed.

Lemma contract_at_insert i c cs cc lc n fc ev :
  contract_at (mkState (<[i := c]> cs) cc lc n fc ev) i = c.
Proof. unfold contract_at; simpl. by rewrite lookup_insert_eq. Qed.

Lemma contract_at_created msg t cl h s :
  contract_at (created msg t cl h s) (totalContracts s) =
  mkContract (totalContracts s) t h (sender msg) cl PendingClientApproval
             (timestamp msg) 0 0 true.
Proof. apply contract_at_insert. Qed.

Lemma createContract_unfold msg t cl e p s :
  createContract msg t cl e p s =
  if (cl =? 0)%N then Revert "Client address cannot be zero"
  else if (cl =? sender msg)%N then Revert "Lawyer and client cannot be the same"
  else if (0 <? String.length t)%nat then
    if (totalContracts s <? MAX_UINT256)%N then
      match fromExternal (sender msg) e p with
      | Some h => Ok (totalContracts s, created msg t cl h s)
      | None => Revert "FHE: invalid input proof"
      end
    else Panic 17
  else Revert "Title cannot be empty".
Proof.
  unfold createContract, mbind, M_bind, require, gets, increment_totalContracts,
    FHE_fromExternal; simpl.
  destruct (cl =? 0)%N; simpl; [done|].
  destruct (cl =? sender msg)%N; simpl; [done|].
  destruct (0 <? String.length t)%nat; simpl; [|done].
  destruct (totalContracts s <? MAX_UINT256)%N; simpl; [|done].
  destruct (fromExternal (sender msg) e p); simpl; done.
Qed.

Lemma clientApprove_unfold msg i s :
  clientApprove msg i s =
  if exists_ (contract_at s i) then
    if (client (contract_at s i) =? sender msg)%N then
      if bool_decide (status (contract_at s i) = PendingClientApproval)
      then Ok (tt, approved msg i s)
      else Revert "Contract not in pending client approval status"
    else Revert "Only client can approve"
  else Revert "Contract does not exist".
Proof.
  unfold clientApprove, mbind, M_bind, require, gets, update_contract, emit, modify;
    simpl.
  destruct (exists_ (contract_at s i)); simpl; [|done].
  destruct (client (contract_at s i) =? sender msg)%N; simpl; [|done].
  destruct (bool_decide _); simpl; [|done].
  unfold approved. rewrite contract_at_set. unfold set_contract; simpl.
  by rewrite insert_insert_eq.
Qed.

Lemma lawyerConfirm_unfold msg i s :
  lawyerConfirm msg i s =
  if exists_ (contract_at s i) then
    if (lawyer (contract_at s i) =? sender msg)%N then
      if bool_decide (status (contract_at s i) = PendingLawyerFinalConfirmation)
      then Ok (tt, confirmed msg i s)
      else Revert "Contract not in pending lawyer confirmation status"
    else Revert "Only lawyer can confirm"
  else Revert "Contract does not exist".
Proof.
  unfold lawyerConfirm, mbind, M_bind, require, gets, update_contract, emit,
    FHE_allow, modify; simpl.
  destruct (exists_ (contract_at s i)); simpl; [|done].
  destruct (lawyer (contract_at s i) =? sender msg)%N; simpl; [|done].
  destruct (bool_decide _); simpl; [|done].
  unfold confirmed, fhe_call. simpl. rewrite !contract_at_set.
  unfold set_contract; simpl. rewrite insert_insert_eq, contract_at_insert.
  by rewrite <- app_assoc.
Qed.

End Transitions.

(** ** Invariants of reachable states *)

(** The ids [0 .. n-1] in increasing order. *)
Definition ids_below (n : N) : list N := N.of_nat <$> seq 0 (N.to_nat n).

Lemma ids_below_succ n : ids_below (n + 1) = ids_below n ++ [n].
Proof.
  unfold ids_below. replace (N.to_nat (n + 1)) with (N.to_nat n + 1)%nat by lia.
  rewrite seq_app, fmap_app. simpl. by rewrite N2Nat.id.
Qed.

Lemma elem_of_ids_below i n : i ∈ ids_below n ↔ i < n.
Proof.
  unfold ids_below. rewrite list_elem_of_fmap. split.
  - intros (k & -> & Hk). apply elem_of_seq in Hk. lia.
  - intros Hi. exists (N.to_nat i). split; [by rewrite N2Nat.id|].
    apply elem_of_seq. lia.
Qed.

Lemma ids_below_sorted n : StronglySorted N.lt (ids_below n).
Proof.
  induction n as [|n IH] using N.peano_ind; [constructor|].
  rewrite <- N.add_1_r, ids_below_succ.
  apply StronglySorted_app_2; [|done|repeat constructor].
  intros x y Hx Hy. apply elem_of_ids_below in Hx.
  apply list_elem_of_singleton in Hy. by subst.
Qed.

Lemma ids_below_NoDup n : NoDup (ids_below n).
Proof. unfold ids_below. apply NoDup_fmap_2; [apply _|apply NoDup_seq]. Qed.

Lemma filter_ext_elem {A} (P Q : A → Prop) `{∀ x, Decision (P x)}
    `{∀ x, Decision (Q x)} (l : list A) :
  (∀ x, x ∈ l → P x ↔ Q x) → filter P l = filter Q l.
Proof.
  induction l as [|x l IH]; intros HPQ; [done|].
  rewrite !filter_cons.
  assert (P x ↔ Q x) as Hx by (apply HPQ; left).
  rewrite IH by (intros y Hy; apply HPQ; by right).
  destruct (decide (P x)), (decide (Q x)); tauto.
Qed.

Lemma StronglySorted_filter {A} (R : relation A) (P : A → Prop)
    `{∀ x, Decision (P x)} (l : list A) :
  StronglySorted R l → StronglySorted R (filter P l).
Proof.
  induction 1 as [|x l Hl IH Hx]; [constructor|].
  rewrite filter_cons. case_decide; [|done].
  constructor; [done|]. apply Forall_forall. intros y Hy.
  apply list_elem_of_filter in Hy as [_ Hy].
  rewrite Forall_forall in Hx. by apply Hx.
Qed.

Lemma contract_at_lookup s i c : contracts s !! i = Some c → contract_at s i = c.
Proof. unfold contract_at. by intros ->. Qed.

Lemma contract_at_exists s i :
  exists_ (contract_at s i) = true → contracts s !! i = Some (contract_at s i).
Proof.
  unfold contract_at. destruct (contracts s !! i); simpl; [done|discriminate].
Qed.

Record wf_state (s : State) : Prop := {
  wf_range : ∀ i c, contracts s !! i = Some c → i < totalContracts s;
  wf_exists : ∀ i c, contracts s !! i = Some c → exists_ c = true ∧ id c = i;
  wf_dense : ∀ i, i < totalContracts s → is_Some (contracts s !! i);
  wf_parties : ∀ i c, contracts s !! i = Some c →
    client c ≠ lawyer c ∧ client c ≠ 0 ∧ title c ≠ "";
  wf_clients : ∀ a, ids_of (clientContracts s) a =
    filter (λ i, client (contract_at s i) = a) (ids_below (totalContracts s));
  wf_lawyers : ∀ a, ids_of (lawyerContracts s) a =
    filter (λ i, lawyer (contract_at s i) = a) (ids_below (totalContracts s));
  wf_granted : ∀ i c, contracts s !! i = Some c → status c = Completed →
    Allow (encryptedContent c) (lawyer c) ∈ fheCalls s ∧
    Allow (encryptedContent c) (client c) ∈ fheCalls s;
  wf_grants : ∀ h a, Allow h a ∈ fheCalls s →
    ∃ i c, contracts s !! i = Some c ∧ status c = Completed ∧
           encryptedContent c = h ∧ (a = lawyer c ∨ a = client c)
}.

Lemma wf_fresh s i : wf_state s → totalContracts s ≤ i → contracts s !! i = None.
Proof.
  intros Hwf Hi. destruct (contracts s !! i) as [c|] eqn:E; [|done].
  apply (wf_range _ Hwf) in E. lia.
Qed.

Lemma wf_init : wf_state initState.
Proof.
  split; simpl; try (intros; simplify_map_eq; fail).
  - intros i Hi. lia.
  - intros a. unfold ids_of. by rewrite lookup_empty.
  - intros a. unfold ids_of. by rewrite lookup_empty.
  - intros h a Hin. by apply elem_of_nil in Hin.
Qed.

Section Preservation.
Context `{FHE}.

Lemma wf_created msg t cl h s :
  wf_state s → cl ≠ 0 → cl ≠ sender msg → t ≠ "" →
  wf_state (created msg t cl h s).
Proof.
  intros Hwf Hz Hne Ht.
  assert (Hnew : contracts s !! totalContracts s = None) by (by apply wf_fresh).
  assert (Hold : ∀ i, i ∈ ids_below (totalContracts s) →
            contract_at (created msg t cl h s) i = contract_at s i).
  { intros i Hi. apply elem_of_ids_below in Hi. unfold contract_at, created; simpl.
    rewrite lookup_insert_ne by lia. done. }
  split; simpl.
  - intros i c Hi. destruct (decide (i = totalContracts s)) as [->|Hn]; [lia|].
    rewrite lookup_insert_ne in Hi by done. apply (wf_range _ Hwf) in Hi. lia.
  - intros i c Hi. destruct (decide (i = totalContracts s)) as [->|Hn].
    + rewrite lookup_insert_eq in Hi. by inversion Hi.
    + rewrite lookup_insert_ne in Hi by done. by apply (wf_exists _ Hwf).
  - intros i Hi. destruct (decide (i = totalContracts s)) as [->|Hn].
    + rewrite lookup_insert_eq. eauto.
    + rewrite lookup_insert_ne by done. apply (wf_dense _ Hwf). lia.
  - intros i c Hi. destruct (decide (i = totalContracts s)) as [->|Hn].
    + rewrite lookup_insert_eq in Hi. inversion Hi; subst; simpl. done.
    + rewrite lookup_insert_ne in Hi by done. by apply (wf_parties _ Hwf) in Hi.
  - intros a. rewrite ids_below_succ, filter_app.
    rewrite (filter_ext_elem _ (λ i, client (contract_at s i) = a)); last first.
    { intros i Hi. by rewrite Hold. }
    rewrite <- (wf_clients _ Hwf). rewrite filter_cons, filter_nil.
    rewrite contract_at_created. simpl. unfold ids_of at 1.
    rewrite lookup_insert. repeat case_decide; simplify_eq; simpl; [done|].
    by rewrite app_nil_r.
  - intros a. rewrite ids_below_succ, filter_app.
    rewrite (filter_ext_elem _ (λ i, lawyer (contract_at s i) = a)); last first.
    { intros i Hi. by rewrite Hold. }
    rewrite <- (wf_lawyers _ Hwf). rewrite filter_cons, filter_nil.
    rewrite contract_at_created. simpl. unfold ids_of at 1.
    rewrite lookup_insert. repeat case_decide; simplify_eq; simpl; [done|].
    by rewrite app_nil_r.
  - intros i c Hi Hst. destruct (decide (i = totalContracts s)) as [->|Hn].
    + rewrite lookup_insert_eq in Hi. inversion Hi; subst; simpl in *. done.
    + rewrite lookup_insert_ne in Hi by done.
      destruct (wf_granted _ Hwf _ _ Hi Hst). split; apply elem_of_app; by left.
  - intros h' a Hin. apply elem_of_app in Hin as [Hin|Hin].
    + destruct (wf_grants _ Hwf _ _ Hin) as (i & c & Hi & Hc).
      exists i, c. split; [|done].
      rewrite lookup_insert_ne; [done|]. intros <-. congruence.
    + apply list_elem_of_singleton in Hin. discriminate.
Qed.

(** A write to fields other than [id], [title], [lawyer], [client] and
    [exists] of an existing record keeps the structural invariants. *)
Definition keeps_identity (f : Contract → Contract) : Prop :=
  ∀ c, id (f c) = id c ∧ exists_ (f c) = exists_ c ∧ client (f c) = client c ∧
       lawyer (f c) = lawyer c ∧ title (f c) = title c ∧
       encryptedContent (f c) = encryptedContent c.

Lemma keeps_identity_approve t :
  keeps_identity (λ c, with_clientApprovedAt t (with_status PendingLawyerFinalConfirmation c)).
Proof. by intros []. Qed.

Lemma keeps_identity_confirm t :
  keeps_identity (λ c, with_lawyerConfirmedAt t (with_status Completed c)).
Proof. by intros []. Qed.

Lemma contract_at_update i j f cs cc lc n fc ev s :
  contracts s = cs →
  contract_at (mkState (<[i := f (contract_at s i)]> cs) cc lc n fc ev) j =
  if decide (i = j) then f (contract_at s i) else contract_at s j.
Proof.
  intros <-. unfold contract_at at 1; simpl. rewrite lookup_insert.
  by case_decide.
Qed.

Lemma wf_update i f fc ev s :
  wf_state s → keeps_identity f → exists_ (contract_at s i) = true →
  (∀ j c, contracts s !! j = Some c → j ≠ i → status c = Completed →
     Allow (encryptedContent c) (lawyer c) ∈ fc ∧
     Allow (encryptedContent c) (client c) ∈ fc) →
  (status (f (contract_at s i)) = Completed →
     Allow (encryptedContent (contract_at s i)) (lawyer (contract_at s i)) ∈ fc ∧
     Allow (encryptedContent (contract_at s i)) (client (contract_at s i)) ∈ fc) →
  (∀ h a, Allow h a ∈ fc →
     ∃ j c, <[i := f (contract_at s i)]> (contracts s) !! j = Some c ∧
            status c = Completed ∧ encryptedContent c = h ∧
            (a = lawyer c ∨ a = client c)) →
  wf_state (mkState (<[i := f (contract_at s i)]> (contracts s))
                    (clientContracts s) (lawyerContracts s) (totalContracts s) fc ev).
Proof.
  intros Hwf Hf Hex Hold Hnew Hgr.
  pose proof (contract_at_exists _ _ Hex) as Hi.
  destruct (Hf (contract_at s i)) as (Hid & He & Hcl & Hlw & Hti & Hen).
  split; simpl.
  - intros j c Hj. rewrite lookup_insert in Hj. case_decide; simplify_eq.
    + by apply (wf_range _ Hwf) in Hi.
    + by apply (wf_range _ Hwf) in Hj.
  - intros j c Hj. rewrite lookup_insert in Hj. case_decide; simplify_eq.
    + rewrite He, Hid. by apply (wf_exists _ Hwf).
    + by apply (wf_exists _ Hwf).
  - intros j Hj. rewrite lookup_insert. case_decide; [eauto|].
    by apply (wf_dense _ Hwf).
  - intros j c Hj. rewrite lookup_insert in Hj. case_decide; simplify_eq.
    + rewrite Hcl, Hlw, Hti. by apply (wf_parties _ Hwf) in Hi.
    + by apply (wf_parties _ Hwf) in Hj.
  - intros a. rewrite (wf_clients _ Hwf). apply list_filter_iff. intros j.
    rewrite contract_at_update by done. case_decide; simplify_eq; [|done].
    by rewrite Hcl.
  - intros a. rewrite (wf_lawyers _ Hwf). apply list_filter_iff. intros j.
    rewrite contract_at_update by done. case_decide; simplify_eq; [|done].
    by rewrite Hlw.
  - intros j c Hj Hst. rewrite lookup_insert in Hj. case_decide; simplify_eq.
    + rewrite Hen, Hlw, Hcl. by apply Hnew.
    + by eapply Hold.
  - done.
Qed.

Lemma wf_approved msg i s :
  wf_state s → exists_ (contract_at s i) = true →
  status (contract_at s i) = PendingClientApproval →
  wf_state (approved msg i s).
Proof.
  intros Hwf Hex Hst. unfold approved.
  apply (wf_update i (λ c, with_clientApprovedAt (timestamp msg)
                             (with_status PendingLawyerFinalConfirmation c)));
    [done|apply keeps_identity_approve|done|..].
  - intros j c Hj _ Hc. by apply (wf_granted _ Hwf _ _ Hj).
  - simpl. discriminate.
  - intros h a Hin. destruct (wf_grants _ Hwf _ _ Hin) as (j & c & Hj & Hc & Hr).
    exists j, c. split; [|done]. rewrite lookup_insert_ne; [done|].
    intros <-. apply contract_at_lookup in Hj. congruence.
Qed.

Lemma wf_confirmed msg i s :
  wf_state s → exists_ (contract_at s i) = true →
  status (contract_at s i) = PendingLawyerFinalConfirmation →
  wf_state (confirmed msg i s).
Proof.
  intros Hwf Hex Hst. unfold confirmed.
  apply (wf_update i (λ c, with_lawyerConfirmedAt (timestamp msg)
                             (with_status Completed c)));
    [done|apply keeps_identity_confirm|done|..].
  - intros j c Hj _ Hc. destruct (wf_granted _ Hwf _ _ Hj Hc).
    split; apply elem_of_app; by left.
  - intros _. split; apply elem_of_app; right; set_solver.
  - intros h a Hin. apply elem_of_app in Hin as [Hin|Hin].
    + destruct (wf_grants _ Hwf _ _ Hin) as (j & c & Hj & Hc & Hr).
      exists j, c. split; [|done]. rewrite lookup_insert_ne; [done|].
      intros <-. apply contract_at_lookup in Hj. congruence.
    + exists i, (with_lawyerConfirmedAt (timestamp msg)
                   (with_status Completed (contract_at s i))).
      rewrite lookup_insert_eq. simpl.
      apply elem_of_cons in Hin as [Hin|Hin]; [|apply list_elem_of_singleton in Hin];
        inversion Hin; subst; auto.
Qed.

Lemma wf_step msg c s : wf_state s → wf_state (step msg c s).
Proof.
  intros Hwf. unfold step, transact. destruct c as [t cl e p|i|i]; simpl.
  - unfold mbind, M_bind. rewrite createContract_unfold.
    destruct (cl =? 0) eqn:Ez; [done|].
    destruct (cl =? sender msg) eqn:Es; [done|].
    destruct (0 <? String.length t)%nat eqn:Et; [|done].
    destruct (totalContracts s <? MAX_UINT256); [|done].
    destruct (fromExternal (sender msg) e p); [|done]. simpl.
    apply wf_created; [done|by apply N.eqb_neq..|].
    intros ->. simpl in Et. discriminate.
  - rewrite clientApprove_unfold.
    destruct (exists_ (contract_at s i)) eqn:Ex; [|done].
    destruct (client (contract_at s i) =? sender msg); [|done].
    case_bool_decide; [|done]. by apply wf_approved.
  - rewrite lawyerConfirm_unfold.
    destruct (exists_ (contract_at s i)) eqn:Ex; [|done].
    destruct (lawyer (contract_at s i) =? sender msg); [|done].
    case_bool_decide; [|done]. by apply wf_confirmed.
Qed.

Lemma reachable_wf s : reachable s → wf_state s.
Proof. induction 1; [apply wf_init|by apply wf_step]. Qed.

Lemma reachable_run tr s : reachable s → reachable (run tr s).
Proof.
  revert s. induction tr as [|[msg c] tr IH]; intros s Hs; simpl; [done|].
  apply IH. by constructor.
Qed.

End Preservation.

(** ** The state machine (claims about transitions) *)

Section Claims.
Context `{FHE}.

(** Closes an equivalence whose left side is a failed call and whose right
    side contains the guard that failed. *)
Ltac guard_fails :=
  split; [discriminate|];
  let Hg := fresh in
  intros Hg; decompose [and ex] Hg; clear Hg; simplify_eq; done.

Lemma exists_iff_lookup s i :
  wf_state s → exists_ (contract_at s i) = true ↔ is_Some (contracts s !! i).
Proof.
  intros Hwf. split.
  - intros Hex. rewrite (contract_at_exists _ _ Hex). eauto.
  - intros [c Hc]. rewrite (contract_at_lookup _ _ _ Hc).
    by destruct (wf_exists _ Hwf _ _ Hc).
Qed.

(** C1. The three transitions of the record state machine.
    [createContract] succeeds exactly when the client is not the zero
    address, differs from the caller and the title is non-empty (and the
    counter does not overflow and the input proof verifies); it then returns
    the id [totalContracts], which no record uses yet, and stores a record in
    [PendingClientApproval] with the caller as lawyer.  [clientApprove]
    succeeds exactly when the record exists, the caller is its client and
    its status is [PendingClientApproval]; it moves the record to
    [PendingLawyerFinalConfirmation] and stamps [clientApprovedAt].
    [lawyerConfirm] succeeds exactly when the record exists, the caller is
    its lawyer and its status is [PendingLawyerFinalConfirmation]; it moves
    the record to [Completed] and stamps [lawyerConfirmedAt]. *)
Theorem C1_transitions (s : State) (msg : Msg) :
  reachable s →
  (∀ t cl e p i s',
     createContract msg t cl e p s = Ok (i, s') ↔
     cl ≠ sender msg ∧ cl ≠ 0 ∧ t ≠ "" ∧ totalContracts s < MAX_UINT256 ∧
     i = totalContracts s ∧
     ∃ h, fromExternal (sender msg) e p = Some h ∧ s' = created msg t cl h s) ∧
  (∀ t cl h,
     exists_ (contract_at s (totalContracts s)) = false ∧
     contract_at (created msg t cl h s) (totalContracts s) =
       mkContract (totalContracts s) t h (sender msg) cl PendingClientApproval
                  (timestamp msg) 0 0 true) ∧
  (∀ i s',
     clientApprove msg i s = Ok (tt, s') ↔
     exists_ (contract_at s i) = true ∧ client (contract_at s i) = sender msg ∧
     status (contract_at s i) = PendingClientApproval ∧ s' = approved msg i s) ∧
  (∀ i,
     status (contract_at (approved msg i s) i) = PendingLawyerFinalConfirmation ∧
     clientApprovedAt (contract_at (approved msg i s) i) = timestamp msg) ∧
  (∀ i s',
     lawyerConfirm msg i s = Ok (tt, s') ↔
     exists_ (contract_at s i) = true ∧ lawyer (contract_at s i) = sender msg ∧
     status (contract_at s i) = PendingLawyerFinalConfirmation ∧
     s' = confirmed msg i s) ∧
  (∀ i,
     status (contract_at (confirmed msg i s) i) = Completed ∧
     lawyerConfirmedAt (contract_at (confirmed msg i s) i) = timestamp msg).
Proof.
  intros Hr. pose proof (reachable_wf _ Hr) as Hwf.
  split; [|split; [|split; [|split; [|split]]]].
  - intros t cl e p i s'. rewrite createContract_unfold.
    destruct (N.eqb_spec cl 0) as [Hz|Hz]; [guard_fails|].
    destruct (N.eqb_spec cl (sender msg)) as [Hs|Hs]; [guard_fails|].
    destruct t as [|a t]; simpl; [guard_fails|].
    destruct (N.ltb_spec (totalContracts s) MAX_UINT256) as [Hlt|Hge];
      [|split; [done|intros (_ & _ & _ & ? & _); lia]].
    destruct (fromExternal (sender msg) e p) as [h|]; [|guard_fails].
    split.
    + intros [= <- <-]. repeat split; try done. eauto.
    + intros (_ & _ & _ & _ & -> & h' & [= <-] & ->). done.
  - intros t cl h. split; [|apply contract_at_created].
    unfold contract_at. by rewrite (wf_fresh _ _ Hwf).
  - intros i s'. rewrite clientApprove_unfold.
    destruct (exists_ (contract_at s i)); [|guard_fails].
    destruct (N.eqb_spec (client (contract_at s i)) (sender msg)); [|guard_fails].
    case_bool_decide; [|guard_fails].
    split; [by intros [= <-]|by intros (_ & _ & _ & ->)].
  - intros i. unfold approved. by rewrite contract_at_insert.
  - intros i s'. rewrite lawyerConfirm_unfold.
    destruct (exists_ (contract_at s i)); [|guard_fails].
    destruct (N.eqb_spec (lawyer (contract_at s i)) (sender msg)); [|guard_fails].
    case_bool_decide; [|guard_fails].
    split; [by intros [= <-]|by intros (_ & _ & _ & ->)].
  - intros i. unfold confirmed. by rewrite contract_at_insert.
Qed.

Lemma getEncryptedContent_unfold msg i s :
  getEncryptedContent msg i s =
  if exists_ (contract_at s i) then
    if bool_decide (status (contract_at s i) = Completed) then
      if (sender msg =? lawyer (contract_at s i)) || (sender msg =? client (contract_at s i))
      then Ok (encryptedContent (contract_at s i), s)
      else Revert "Only lawyer or client can access content"
    else Revert "Contract must be completed to access content"
  else Revert "Contract does not exist".
Proof.
  unfold getEncryptedContent, mbind, M_bind, require, gets; simpl.
  destruct (exists_ (contract_at s i)); simpl; [|done].
  destruct (bool_decide _); simpl; [|done].
  by destruct (_ || _).
Qed.

(** C3. Access gating of [getEncryptedContent].  For an existing record
    the call fails while the status is not [Completed]; once the record is
    [Completed] it returns the ciphertext handle to the lawyer and to the
    client and fails with the authorization error for every other caller.
    Whenever it returns, the state it returns is the state it was given. *)
Theorem C3_access_gating (s : State) (msg : Msg) (i : uint256) :
  exists_ (contract_at s i) = true →
  (status (contract_at s i) ≠ Completed →
     getEncryptedContent msg i s =
       Revert "Contract must be completed to access content") ∧
  (status (contract_at s i) = Completed →
     (sender msg = lawyer (contract_at s i) ∨ sender msg = client (contract_at s i) ↔
        getEncryptedContent msg i s = Ok (encryptedContent (contract_at s i), s)) ∧
     (sender msg ≠ lawyer (contract_at s i) ∧ sender msg ≠ client (contract_at s i) ↔
        getEncryptedContent msg i s =
          Revert "Only lawyer or client can access content")) ∧
  (∀ h s', getEncryptedContent msg i s = Ok (h, s') → s' = s).
Proof.
  intros Hex. rewrite getEncryptedContent_unfold, Hex.
  case_bool_decide as Hst; (split; [|split]); try done.
  - intros _.
    destruct (N.eqb_spec (sender msg) (lawyer (contract_at s i))) as [Hl|Hl];
      destruct (N.eqb_spec (sender msg) (client (contract_at s i))) as [Hc|Hc];
      simpl; split; split; intros; try done; try tauto; try discriminate.
  - intros h s'. destruct (_ || _); [by intros [= _ <-]|done].
Qed.

(** C9. Order of the checks in [getEncryptedContent]: existence first, then
    status, then caller.  A record that does not exist gives the existence
    failure whatever the caller; an existing record that is not [Completed]
    gives the not-completed failure also to a caller who is neither its
    lawyer nor its client. *)
Theorem C9_check_order (s : State) (msg : Msg) (i : uint256) :
  (exists_ (contract_at s i) = false →
     getEncryptedContent msg i s = Revert "Contract does not exist") ∧
  (exists_ (contract_at s i) = true →
   status (contract_at s i) ≠ Completed →
   sender msg ≠ lawyer (contract_at s i) →
   sender msg ≠ client (contract_at s i) →
     getEncryptedContent msg i s =
       Revert "Contract must be completed to access content").
Proof.
  rewrite getEncryptedContent_unfold. split.
  - by intros ->.
  - intros -> Hst _ _. by case_bool_decide.
Qed.

(** The fields of a record that neither approval step writes. *)
Definition same_identity (c c' : Contract) : Prop :=
  id c' = id c ∧ title c' = title c ∧ encryptedContent c' = encryptedContent c ∧
  lawyer c' = lawyer c ∧ client c' = client c ∧ createdAt c' = createdAt c ∧
  exists_ c' = exists_ c.

(** Everything in storage outside the record [i]. *)
Definition same_elsewhere (i : uint256) (s s' : State) : Prop :=
  (∀ j, j ≠ i → contracts s' !! j = contracts s !! j) ∧
  clientContracts s' = clientContracts s ∧
  lawyerContracts s' = lawyerContracts s ∧
  totalContracts s' = totalContracts s.

(** C8. Frame of the two approval transitions.  A successful
    [clientApprove] changes, in storage, only [status] and
    [clientApprovedAt] of the addressed record, and makes no FHE call; a
    successful [lawyerConfirm] changes only [status] and
    [lawyerConfirmedAt] of the addressed record, and its FHE calls are the
    two grants.  Every other field of the record, every other record, both
    party indexes and the counter are unchanged. *)
Theorem C8_frame (s s' : State) (msg : Msg) (i : uint256) :
  (clientApprove msg i s = Ok (tt, s') →
     same_identity (contract_at s i) (contract_at s' i) ∧
     lawyerConfirmedAt (contract_at s' i) = lawyerConfirmedAt (contract_at s i) ∧
     same_elsewhere i s s' ∧
     fheCalls s' = fheCalls s) ∧
  (lawyerConfirm msg i s = Ok (tt, s') →
     same_identity (contract_at s i) (contract_at s' i) ∧
     clientApprovedAt (contract_at s' i) = clientApprovedAt (contract_at s i) ∧
     same_elsewhere i s s' ∧
     fheCalls s' = fheCalls s ++
       [Allow (encryptedContent (contract_at s i)) (lawyer (contract_at s i));
        Allow (encryptedContent (contract_at s i)) (client (contract_at s i))]).
Proof.
  split; intros Hc.
  - rewrite clientApprove_unfold in Hc.
    destruct (exists_ (contract_at s i)); [|discriminate].
    destruct (client (contract_at s i) =? sender msg); [|discriminate].
    destruct (bool_decide _); [|discriminate].
    injection Hc as <-. unfold approved, same_identity, same_elsewhere.
    rewrite !contract_at_insert. simpl. repeat split.
    intros j Hj. by rewrite lookup_insert_ne.
  - rewrite lawyerConfirm_unfold in Hc.
    destruct (exists_ (contract_at s i)); [|discriminate].
    destruct (lawyer (contract_at s i) =? sender msg); [|discriminate].
    destruct (bool_decide _); [|discriminate].
    injection Hc as <-. unfold confirmed, same_identity, same_elsewhere.
    rewrite !contract_at_insert. simpl. repeat split.
    intros j Hj. by rewrite lookup_insert_ne.
Qed.

(** ** Monotonicity of the status *)

Definition rank (st : ContractStatus) : nat :=
  match st with
  | PendingClientApproval => 0
  | PendingLawyerFinalConfirmation => 1
  | Completed => 2
  end.

(** [advances a b]: the status stays, or moves to the next state. *)
Definition advances (a b : ContractStatus) : Prop :=
  b = a ∨
  (a = PendingClientApproval ∧ b = PendingLawyerFinalConfirmation) ∨
  (a = PendingLawyerFinalConfirmation ∧ b = Completed).

Lemma advances_rank a b : advances a b → (rank a ≤ rank b ≤ rank a + 1)%nat.
Proof. intros [->|[[-> ->]|[-> ->]]]; simpl; lia. Qed.

Lemma step_cases msg c s :
  (succeeds (run_call msg c) s = false ∧ step msg c s = s) ∨
  (succeeds (run_call msg c) s = true ∧
   match c with
   | CreateContract t cl e p =>
       cl ≠ 0 ∧ cl ≠ sender msg ∧ t ≠ "" ∧
       ∃ h, fromExternal (sender msg) e p = Some h ∧
            step msg c s = created msg t cl h s
   | ClientApprove i =>
       exists_ (contract_at s i) = true ∧ client (contract_at s i) = sender msg ∧
       status (contract_at s i) = PendingClientApproval ∧
       step msg c s = approved msg i s
   | LawyerConfirm i =>
       exists_ (contract_at s i) = true ∧ lawyer (contract_at s i) = sender msg ∧
       status (contract_at s i) = PendingLawyerFinalConfirmation ∧
       step msg c s = confirmed msg i s
   end).
Proof.
  unfold step, transact, succeeds. destruct c as [t cl e p|i|i]; simpl.
  - unfold mbind, M_bind. rewrite createContract_unfold.
    destruct (N.eqb_spec cl 0); [by left|].
    destruct (N.eqb_spec cl (sender msg)); [by left|].
    destruct t as [|a t]; simpl; [by left|].
    destruct (totalContracts s <? MAX_UINT256); [|by left].
    destruct (fromExternal (sender msg) e p) as [h|]; [|by left].
    simpl. right. repeat split; try done. by exists h.
  - rewrite clientApprove_unfold.
    destruct (exists_ (contract_at s i)); [|by left].
    destruct (N.eqb_spec (client (contract_at s i)) (sender msg)); [|by left].
    case_bool_decide; [|by left]. by right.
  - rewrite lawyerConfirm_unfold.
    destruct (exists_ (contract_at s i)); [|by left].
    destruct (N.eqb_spec (lawyer (contract_at s i)) (sender msg)); [|by left].
    case_bool_decide; [|by left]. by right.
Qed.

Lemma contract_at_insert_decide i j c s cc lc n fc ev :
  contract_at (mkState (<[i := c]> (contracts s)) cc lc n fc ev) j =
  if decide (i = j) then c else contract_at s j.
Proof. unfold contract_at at 1; simpl. rewrite lookup_insert. by case_decide. Qed.

Lemma contract_at_created_old msg t cl h s i :
  wf_state s → exists_ (contract_at s i) = true →
  contract_at (created msg t cl h s) i = contract_at s i.
Proof.
  intros Hwf Hex. apply contract_at_exists in Hex.
  pose proof (wf_range _ Hwf _ _ Hex) as Hlt.
  unfold contract_at, created; simpl. rewrite lookup_insert_ne by lia. done.
Qed.

Lemma step_status msg c s i :
  wf_state s → exists_ (contract_at s i) = true →
  exists_ (contract_at (step msg c s) i) = true ∧
  advances (status (contract_at s i)) (status (contract_at (step msg c s) i)).
Proof.
  intros Hwf Hex.
  destruct (step_cases msg c s) as [[_ ->]|[_ Hc]]; [split; [done|by left]|].
  destruct c as [t cl e p|j|j].
  - destruct Hc as (_ & _ & _ & h & _ & ->).
    rewrite contract_at_created_old by done. split; [done|by left].
  - destruct Hc as (Hj & _ & Hst & ->). unfold approved.
    rewrite contract_at_insert_decide. case_decide; simplify_eq; simpl.
    + split; [done|]. right; left. done.
    + split; [done|by left].
  - destruct Hc as (Hj & _ & Hst & ->). unfold confirmed.
    rewrite contract_at_insert_decide. case_decide; simplify_eq; simpl.
    + split; [done|]. right; right. done.
    + split; [done|by left].
Qed.

Lemma run_status tr s i :
  wf_state s → exists_ (contract_at s i) = true →
  exists_ (contract_at (run tr s) i) = true ∧
  (rank (status (contract_at s i)) ≤ rank (status (contract_at (run tr s) i)))%nat.
Proof.
  revert s. induction tr as [|[msg c] tr IH]; intros s Hwf Hex; simpl; [done|].
  destruct (step_status msg c s i Hwf Hex) as [Hex' Hadv].
  destruct (IH _ (wf_step msg c s Hwf) Hex') as [Hex'' Hle].
  split; [done|]. apply advances_rank in Hadv. lia.
Qed.

(** C5. State monotonicity.  For an existing record of a reachable state:
    every transaction leaves its status where it is or moves it to the next
    state of the sequence [PendingClientApproval],
    [PendingLawyerFinalConfirmation], [Completed]; along every sequence of
    transactions the status never goes back; [clientApprove] fails unless the
    status is [PendingClientApproval] and [lawyerConfirm] fails unless it is
    [PendingLawyerFinalConfirmation]; and a transaction that fails leaves the
    whole state, hence the whole record, as it was. *)
Theorem C5_monotone (s : State) (i : uint256) :
  reachable s → exists_ (contract_at s i) = true →
  (∀ msg c,
     exists_ (contract_at (step msg c s) i) = true ∧
     advances (status (contract_at s i)) (status (contract_at (step msg c s) i))) ∧
  (∀ tr,
     exists_ (contract_at (run tr s) i) = true ∧
     (rank (status (contract_at s i)) ≤ rank (status (contract_at (run tr s) i)))%nat) ∧
  (∀ msg, status (contract_at s i) ≠ PendingClientApproval →
     succeeds (clientApprove msg i) s = false) ∧
  (∀ msg, status (contract_at s i) ≠ PendingLawyerFinalConfirmation →
     succeeds (lawyerConfirm msg i) s = false) ∧
  (∀ msg c, succeeds (run_call msg c) s = false → step msg c s = s).
Proof.
  intros Hr Hex. pose proof (reachable_wf _ Hr) as Hwf.
  split; [|split; [|split; [|split]]].
  - intros msg c. by apply step_status.
  - intros tr. by apply run_status.
  - intros msg Hst. unfold succeeds. rewrite clientApprove_unfold, Hex.
    destruct (_ =? _); [|done]. by case_bool_decide.
  - intros msg Hst. unfold succeeds. rewrite lawyerConfirm_unfold, Hex.
    destruct (_ =? _); [|done]. by case_bool_decide.
  - intros msg c Hf. destruct (step_cases msg c s) as [[_ ->]|[Hs _]]; [done|].
    congruence.
Qed.

(** ** Ids and party indexes *)

(** C10. Sequential ids and consistent party indexes.  A successful
    [createContract] returns the current [totalContracts], increments it by
    one and appends the new id to the client's list and to the caller's
    lawyer list.  In every reachable state [getClientContracts c] returns the
    ids below [totalContracts] whose record has client [c], in increasing
    order of id (the order of creation), and [getLawyerContracts l] those
    whose record has lawyer [l]; so an id is listed exactly when its record
    exists with that party, and the lists are strictly increasing and
    duplicate-free. *)
Theorem C10_indexes (s : State) :
  reachable s →
  (∀ msg t cl e p i s',
     createContract msg t cl e p s = Ok (i, s') →
     i = totalContracts s ∧ totalContracts s' = totalContracts s + 1 ∧
     ids_of (clientContracts s') cl = ids_of (clientContracts s) cl ++ [i] ∧
     ids_of (lawyerContracts s') (sender msg) =
       ids_of (lawyerContracts s) (sender msg) ++ [i]) ∧
  (∀ c,
     getClientContracts c s =
       Ok (filter (λ i, client (contract_at s i) = c) (ids_below (totalContracts s)), s) ∧
     (∀ i, i ∈ ids_of (clientContracts s) c ↔
           exists_ (contract_at s i) = true ∧ client (contract_at s i) = c) ∧
     StronglySorted N.lt (ids_of (clientContracts s) c) ∧
     NoDup (ids_of (clientContracts s) c)) ∧
  (∀ l,
     getLawyerContracts l s =
       Ok (filter (λ i, lawyer (contract_at s i) = l) (ids_below (totalContracts s)), s) ∧
     (∀ i, i ∈ ids_of (lawyerContracts s) l ↔
           exists_ (contract_at s i) = true ∧ lawyer (contract_at s i) = l) ∧
     StronglySorted N.lt (ids_of (lawyerContracts s) l) ∧
     NoDup (ids_of (lawyerContracts s) l)).
Proof.
  intros Hr. pose proof (reachable_wf _ Hr) as Hwf.
  assert (Hmem : ∀ i, i < totalContracts s ↔ exists_ (contract_at s i) = true).
  { intros i. rewrite exists_iff_lookup by done. split.
    - apply (wf_dense _ Hwf).
    - intros [c Hc]. by apply (wf_range _ Hwf) in Hc. }
  split; [|split].
  - intros msg t cl e p i s' Hc. rewrite createContract_unfold in Hc.
    destruct (cl =? 0); [discriminate|].
    destruct (cl =? sender msg); [discriminate|].
    destruct (0 <? String.length t)%nat; [|discriminate].
    destruct (totalContracts s <? MAX_UINT256); [|discriminate].
    destruct (fromExternal _ _ _) as [h|]; [|discriminate].
    injection Hc as <- <-. unfold created, ids_of; simpl.
    by rewrite !lookup_insert_eq.
  - intros c. unfold getClientContracts, gets. rewrite (wf_clients _ Hwf).
    split; [done|]. split; [|split].
    + intros i. rewrite list_elem_of_filter, elem_of_ids_below, Hmem. tauto.
    + apply StronglySorted_filter, ids_below_sorted.
    + apply NoDup_filter, ids_below_NoDup.
  - intros l. unfold getLawyerContracts, gets. rewrite (wf_lawyers _ Hwf).
    split; [done|]. split; [|split].
    + intros i. rewrite list_elem_of_filter, elem_of_ids_below, Hmem. tauto.
    + apply StronglySorted_filter, ids_below_sorted.
    + apply NoDup_filter, ids_below_NoDup.
Qed.

(** ** Access grants *)

(** [granted s h a]: the contract has called [FHE.allow (h, a)]. *)
Definition granted (s : State) (h : euint32) (a : address) : Prop :=
  Allow h a ∈ fheCalls s.

(** The grant property as the specification words it: both parties of a
    record hold a grant on its ciphertext exactly when it is [Completed]. *)
Definition grants_iff_completed : Prop :=
  ∀ s i, reachable s → exists_ (contract_at s i) = true →
    (granted s (encryptedContent (contract_at s i)) (lawyer (contract_at s i)) ∧
     granted s (encryptedContent (contract_at s i)) (client (contract_at s i)))
    ↔ status (contract_at s i) = Completed.

Lemma step_grants msg c s h a :
  granted (step msg c s) h a →
  granted s h a ∨
  ∃ j, c = LawyerConfirm j ∧
       status (contract_at s j) = PendingLawyerFinalConfirmation ∧
       status (contract_at (step msg c s) j) = Completed ∧
       h = encryptedContent (contract_at s j) ∧
       (a = lawyer (contract_at s j) ∨ a = client (contract_at s j)).
Proof.
  unfold granted.
  destruct (step_cases msg c s) as [[_ ->]|[_ Hc]]; [by left|].
  destruct c as [t cl e p|j|j].
  - destruct Hc as (_ & _ & _ & h' & _ & ->). simpl.
    rewrite elem_of_app, list_elem_of_singleton. intros [?|?]; [by left|done].
  - destruct Hc as (_ & _ & _ & ->). simpl. by left.
  - destruct Hc as (_ & _ & Hst & ->). simpl.
    rewrite elem_of_app. intros [?|Hin]; [by left|]. right. exists j.
    unfold confirmed. rewrite contract_at_insert. simpl. repeat split; try done.
    + apply elem_of_cons in Hin as [Hin|Hin];
        [|apply list_elem_of_singleton in Hin]; by inversion Hin.
    + apply elem_of_cons in Hin as [Hin|Hin];
        [|apply list_elem_of_singleton in Hin]; inversion Hin; auto.
Qed.

(** C4 (as amended).  In every reachable state a [Completed] record's
    lawyer and client both hold a grant on its ciphertext handle; every grant
    [FHE.allow (h, a)] the contract has made is for the handle of some
    [Completed] record and goes to that record's lawyer or client; a
    transaction adds a grant only when it is the [lawyerConfirm] that moves a
    record from [PendingLawyerFinalConfirmation] to [Completed].  Hence, for
    a record whose handle no other record carries, the two parties hold
    grants if and only if the record is [Completed]. *)
Theorem C4_grants (s : State) (i : uint256) :
  reachable s → exists_ (contract_at s i) = true →
  (status (contract_at s i) = Completed →
     granted s (encryptedContent (contract_at s i)) (lawyer (contract_at s i)) ∧
     granted s (encryptedContent (contract_at s i)) (client (contract_at s i))) ∧
  (∀ h a, granted s h a →
     ∃ j, exists_ (contract_at s j) = true ∧
          status (contract_at s j) = Completed ∧
          encryptedContent (contract_at s j) = h ∧
          (a = lawyer (contract_at s j) ∨ a = client (contract_at s j))) ∧
  (∀ msg c h a, granted (step msg c s) h a →
     granted s h a ∨
     ∃ j, c = LawyerConfirm j ∧
          status (contract_at s j) = PendingLawyerFinalConfirmation ∧
          status (contract_at (step msg c s) j) = Completed ∧
          h = encryptedContent (contract_at s j) ∧
          (a = lawyer (contract_at s j) ∨ a = client (contract_at s j))) ∧
  ((∀ j, exists_ (contract_at s j) = true →
         encryptedContent (contract_at s j) = encryptedContent (contract_at s i) →
         j = i) →
     (granted s (encryptedContent (contract_at s i)) (lawyer (contract_at s i)) ∧
      granted s (encryptedContent (contract_at s i)) (client (contract_at s i)))
     ↔ status (contract_at s i) = Completed).
Proof.
  intros Hr Hex. pose proof (reachable_wf _ Hr) as Hwf.
  assert (Hsound : ∀ h a, granted s h a →
     ∃ j, exists_ (contract_at s j) = true ∧
          status (contract_at s j) = Completed ∧
          encryptedContent (contract_at s j) = h ∧
          (a = lawyer (contract_at s j) ∨ a = client (contract_at s j))).
  { intros h a Hg. destruct (wf_grants _ Hwf _ _ Hg) as (j & c & Hj & Hc).
    exists j. rewrite (contract_at_lookup _ _ _ Hj).
    split; [|done]. by destruct (wf_exists _ Hwf _ _ Hj). }
  assert (Hcomplete : status (contract_at s i) = Completed →
     granted s (encryptedContent (contract_at s i)) (lawyer (contract_at s i)) ∧
     granted s (encryptedContent (contract_at s i)) (client (contract_at s i))).
  { intros Hst. apply (wf_granted _ Hwf i); [|done]. by apply contract_at_exists. }
  split; [done|]. split; [done|].
  split; [intros msg c h a; apply step_grants|].
  intros Huniq. split; [|done].
  intros [Hg _]. destruct (Hsound _ _ Hg) as (j & Hj & Hst & Hen & _).
  by rewrite <- (Huniq j Hj Hen).
Qed.

(** *** Two records sharing one handle

    Whatever the FHE library is, a caller [L] whose input [(e, p)] it accepts
    can create two records from that input for the same client; both carry
    the handle [h].  After the first is approved and confirmed, the parties
    of the second hold grants on its handle although it is still pending. *)

Lemma step_create msg t cl e p h s :
  cl ≠ 0 → cl ≠ sender msg → t ≠ "" → totalContracts s < MAX_UINT256 →
  fromExternal (sender msg) e p = Some h →
  step msg (CreateContract t cl e p) s = created msg t cl h s.
Proof.
  intros Hz Hs Ht Hlt Hh. unfold step, transact, run_call, mbind, M_bind.
  rewrite createContract_unfold.
  destruct (N.eqb_spec cl 0); [done|].
  destruct (N.eqb_spec cl (sender msg)); [done|].
  destruct t; [done|]. simpl.
  destruct (N.ltb_spec (totalContracts s) MAX_UINT256); [|lia].
  by rewrite Hh.
Qed.

Lemma step_approve msg i s :
  exists_ (contract_at s i) = true → client (contract_at s i) = sender msg →
  status (contract_at s i) = PendingClientApproval →
  step msg (ClientApprove i) s = approved msg i s.
Proof.
  intros Hex Hc Hst. unfold step, transact, run_call.
  rewrite clientApprove_unfold, Hex.
  destruct (N.eqb_spec (client (contract_at s i)) (sender msg)); [|done].
  by rewrite bool_decide_eq_true_2.
Qed.

Lemma step_confirm msg i s :
  exists_ (contract_at s i) = true → lawyer (contract_at s i) = sender msg →
  status (contract_at s i) = PendingLawyerFinalConfirmation →
  step msg (LawyerConfirm i) s = confirmed msg i s.
Proof.
  intros Hex Hc Hst. unfold step, transact, run_call.
  rewrite lawyerConfirm_unfold, Hex.
  destruct (N.eqb_spec (lawyer (contract_at s i)) (sender msg)); [|done].
  by rewrite bool_decide_eq_true_2.
Qed.

Definition shared_run (L C : address) (t : string) (e : externalEuint32)
    (p : bytes) (tL tC : uint256) : State :=
  run [ (mkMsg L tL, CreateContract t C e p);
        (mkMsg L tL, CreateContract t C e p);
        (mkMsg C tC, ClientApprove 0);
        (mkMsg L tL, LawyerConfirm 0) ] initState.

Lemma shared_handle L C t e p h tL tC :
  C ≠ 0 → C ≠ L → t ≠ "" → fromExternal L e p = Some h →
  let s := shared_run L C t e p tL tC in
  reachable s ∧
  exists_ (contract_at s 1) = true ∧
  status (contract_at s 1) = PendingClientApproval ∧
  granted s (encryptedContent (contract_at s 1)) (lawyer (contract_at s 1)) ∧
  granted s (encryptedContent (contract_at s 1)) (client (contract_at s 1)).
Proof.
  intros Hz Hne Ht Hh s. split; [apply reachable_run, reachable_init|].
  subst s. unfold shared_run. cbn [run].
  rewrite (step_create _ _ _ _ _ h initState); [|done|done|done|reflexivity|done].
  rewrite (step_create _ _ _ _ _ h); [|done|done|done|reflexivity|done].
  set (s2 := created _ _ _ _ (created _ _ _ _ initState)).
  assert (H0 : contract_at s2 0 =
               mkContract 0 t h L C PendingClientApproval tL 0 0 true).
  { unfold s2, contract_at, created; simpl. rewrite lookup_insert_ne by done.
    by rewrite lookup_insert_eq. }
  assert (H1 : contract_at s2 1 =
               mkContract 1 t h L C PendingClientApproval tL 0 0 true).
  { unfold s2, contract_at, created; simpl. by rewrite lookup_insert_eq. }
  rewrite step_approve by (by rewrite H0).
  set (s3 := approved _ 0 s2).
  assert (H0' : contract_at s3 0 =
                mkContract 0 t h L C PendingLawyerFinalConfirmation tL tC 0 true).
  { unfold s3, approved. rewrite contract_at_insert, H0. done. }
  rewrite step_confirm by (by rewrite H0').
  assert (H1' : contract_at (confirmed (mkMsg L tL) 0 s3) 1 = contract_at s2 1).
  { unfold confirmed. rewrite contract_at_insert_decide. simpl.
    unfold s3, approved. rewrite contract_at_insert_decide. done. }
  rewrite H1', H1. simpl. unfold granted. simpl. rewrite H0'. simpl.
  repeat split; set_solver.
Qed.

(** The property as worded fails for every FHE library that accepts at
    least one input. *)
Lemma grants_iff_completed_fails L e p h :
  fromExternal L e p = Some h → ¬ grants_iff_completed.
Proof.
  intros Hh Hclaim.
  destruct (shared_handle L (L + 1) "NDA" e p h 0 0)
    as (Hr & Hex & Hst & Hg); [lia|lia|done|done|].
  apply (Hclaim _ 1 Hr Hex) in Hg. congruence.
Qed.

End Claims.

(** ** A worked scenario

    Lawyer 1 creates two records for client 2 from the same encrypted
    input 7; the client approves record 0 and the lawyer confirms it. *)

Definition lawyerMsg : Msg := mkMsg 1 100.
Definition clientMsg : Msg := mkMsg 2 200.
Definition strangerMsg : Msg := mkMsg 3 300.

Definition scenario : list (Msg * Call) :=
  [ (lawyerMsg, CreateContract "NDA" 2 7 []);
    (lawyerMsg, CreateContract "NDA" 2 7 []);
    (clientMsg, ClientApprove 0);
    (lawyerMsg, LawyerConfirm 0) ].

Definition created2 : State := run (H := trustingFHE) (take 2 scenario) initState.
Definition approved0 : State := run (H := trustingFHE) (take 3 scenario) initState.
Definition completed0 : State := run (H := trustingFHE) scenario initState.

Lemma reachable_created2 : reachable (H := trustingFHE) created2.
Proof. apply reachable_run, reachable_init. Defined.

Lemma reachable_approved0 : reachable (H := trustingFHE) approved0.
Proof. apply reachable_run, reachable_init. Defined.

Lemma reachable_completed0 : reachable (H := trustingFHE) completed0.
Proof. apply reachable_run, reachable_init. Defined.

(** C4, counterexample to the claim as stated: lawyer 1 creates two records
    for client 2 from the same encrypted input 7 and only record 0 is
    completed; record 1 is still [PendingClientApproval], yet its lawyer and
    its client both hold a grant on its ciphertext handle, obtained through
    record 0. *)
Lemma C4_counterexample : ¬ grants_iff_completed (H := trustingFHE).
Proof.
  intros Hclaim.
  destruct (shared_handle (H := trustingFHE) 1 2 "NDA" 7 [] 7 100 200)
    as (Hr & Hex & Hst & Hg); [done..|].
  apply (Hclaim _ 1 Hr Hex) in Hg. congruence.
Qed.

(** *** The claims on the scenario *)

Lemma C1_witness :
  createContract (H := trustingFHE) lawyerMsg "NDA" 2 7 [] initState =
    Ok (0, created lawyerMsg "NDA" 2 7 initState) ∧
  clientApprove clientMsg 0 created2 = Ok (tt, approved clientMsg 0 created2) ∧
  lawyerConfirm lawyerMsg 0 approved0 = Ok (tt, confirmed lawyerMsg 0 approved0).
Proof.
  destruct (C1_transitions (H := trustingFHE) initState lawyerMsg reachable_init)
    as (Hc & _).
  destruct (C1_transitions (H := trustingFHE) created2 clientMsg reachable_created2)
    as (_ & _ & Ha & _).
  destruct (C1_transitions (H := trustingFHE) approved0 lawyerMsg reachable_approved0)
    as (_ & _ & _ & _ & Hl & _).
  split; [|split].
  - apply Hc. repeat split; try done. by exists 7.
  - apply Ha. repeat split; reflexivity.
  - apply Hl. repeat split; reflexivity.
Defined.

Lemma C3_witness :
  getEncryptedContent lawyerMsg 0 completed0 = Ok (7, completed0) ∧
  getEncryptedContent clientMsg 0 completed0 = Ok (7, completed0) ∧
  getEncryptedContent strangerMsg 0 completed0 =
    Revert "Only lawyer or client can access content" ∧
  getEncryptedContent lawyerMsg 1 completed0 =
    Revert "Contract must be completed to access content".
Proof.
  assert (H0 : exists_ (contract_at completed0 0) = true) by reflexivity.
  assert (H1 : exists_ (contract_at completed0 1) = true) by reflexivity.
  assert (Hst : status (contract_at completed0 0) = Completed) by reflexivity.
  destruct (C3_access_gating completed0 lawyerMsg 0 H0) as (_ & Hl & _).
  destruct (C3_access_gating completed0 clientMsg 0 H0) as (_ & Hc & _).
  destruct (C3_access_gating completed0 strangerMsg 0 H0) as (_ & Hs & _).
  destruct (C3_access_gating completed0 lawyerMsg 1 H1) as (Hp & _).
  destruct (Hl Hst) as [[Hl1 _] _]. destruct (Hc Hst) as [[Hc1 _] _].
  destruct (Hs Hst) as [_ [Hs1 _]].
  split; [|split; [|split]].
  - apply Hl1. by left.
  - apply Hc1. by right.
  - apply Hs1. by split.
  - apply Hp. discriminate.
Defined.

Lemma C9_witness :
  getEncryptedContent strangerMsg 1 completed0 =
    Revert "Contract must be completed to access content" ∧
  getEncryptedContent strangerMsg 5 completed0 = Revert "Contract does not exist".
Proof.
  destruct (C9_check_order completed0 strangerMsg 1) as [_ Hp].
  destruct (C9_check_order completed0 strangerMsg 5) as [Hn _].
  split.
  - apply Hp; [reflexivity|discriminate..].
  - apply Hn. reflexivity.
Defined.

Lemma C8_witness :
  fheCalls (approved clientMsg 0 created2) = fheCalls created2 ∧
  fheCalls (confirmed lawyerMsg 0 approved0) =
    fheCalls approved0 ++ [Allow 7 1; Allow 7 2] ∧
  same_elsewhere 0 created2 (approved clientMsg 0 created2) ∧
  same_elsewhere 0 approved0 (confirmed lawyerMsg 0 approved0).
Proof.
  destruct (C8_frame created2 (approved clientMsg 0 created2) clientMsg 0)
    as [Ha _].
  destruct (C8_frame approved0 (confirmed lawyerMsg 0 approved0) lawyerMsg 0)
    as [_ Hl].
  destruct (Ha eq_refl) as (_ & _ & Ha1 & Ha2).
  destruct (Hl eq_refl) as (_ & _ & Hl1 & Hl2).
  split; [exact Ha2|split; [exact Hl2|split; [exact Ha1|exact Hl1]]].
Defined.

Lemma C5_witness :
  succeeds (lawyerConfirm lawyerMsg 0) created2 = false ∧
  step (H := trustingFHE) lawyerMsg (LawyerConfirm 0) created2 = created2 ∧
  advances (status (contract_at created2 0))
           (status (contract_at (step (H := trustingFHE) clientMsg (ClientApprove 0)
                                      created2) 0)).
Proof.
  destruct (C5_monotone (H := trustingFHE) created2 0 reachable_created2 eq_refl)
    as (Hstep & _ & _ & Hl & Hfail).
  split; [|split].
  - apply Hl. discriminate.
  - apply Hfail. reflexivity.
  - apply Hstep.
Defined.

Lemma C10_witness :
  getClientContracts 2 completed0 = Ok ([0; 1], completed0) ∧
  getLawyerContracts 1 completed0 = Ok ([0; 1], completed0) ∧
  getClientContracts 1 completed0 = Ok ([], completed0).
Proof.
  destruct (C10_indexes (H := trustingFHE) completed0 reachable_completed0)
    as (_ & Hc & Hl).
  destruct (Hc 2) as [Hc2 _]. destruct (Hc 1) as [Hc1 _]. destruct (Hl 1) as [Hl1 _].
  split; [|split].
  - exact Hc2.
  - exact Hl1.
  - exact Hc1.
Defined.

(** A run in which no handle is shared: one record, approved and
    confirmed. *)
Definition solo : State :=
  run (H := trustingFHE)
      [ (lawyerMsg, CreateContract "NDA" 2 7 []);
        (clientMsg, ClientApprove 0);
        (lawyerMsg, LawyerConfirm 0) ] initState.

Lemma reachable_solo : reachable (H := trustingFHE) solo.
Proof. apply reachable_run, reachable_init. Defined.

Lemma solo_only_zero j : exists_ (contract_at solo j) = true → j = 0.
Proof.
  intros Hj. apply contract_at_exists in Hj.
  apply (wf_range _ (reachable_wf (H := trustingFHE) _ reachable_solo)) in Hj.
  change (totalContracts solo) with 1 in Hj. lia.
Qed.

Lemma C4_witness :
  (granted solo 7 1 ∧ granted solo 7 2 ↔ status (contract_at solo 0) = Completed) ∧
  granted completed0 7 1 ∧ granted completed0 7 2.
Proof.
  destruct (C4_grants (H := trustingFHE) solo 0 reachable_solo eq_refl)
    as (_ & _ & _ & Hiff).
  destruct (C4_grants (H := trustingFHE) completed0 0 reachable_completed0 eq_refl)
    as (Hg & _).
  split.
  - apply Hiff. intros j Hj _. by apply solo_only_zero.
  - apply Hg. reflexivity.
Defined.

End LawVault.

(* ===================================================================== *)
(** * Part II: JavaScript values and [calculateTextHash]                  *)
(* ===================================================================== *)

(** A JavaScript string is a sequence of UTF-16 code units; numbers that
    stay integral and below 2^53 in magnitude are exact, so they are
    modelled in [Z]. *)
Module JS.

Local Open Scope Z_scope.

Abbreviation js_string := (list Z) (only parsing).

Definition is_code_unit (u : Z) : bool := (0 <=? u) && (u <? 65536).

(** [ToInt32]: reduction modulo 2^32 into [-2^31, 2^31). *)
Definition ToInt32 (x : Z) : Z := (x + 2 ^ 31) mod 2 ^ 32 - 2 ^ 31.

(** [x << n] and [x & y] on numbers: both operands go through [ToInt32]
    (the shift count through [ToUint32] and [& 31]), the result is an
    int32. *)
Definition shl (x n : Z) : Z := ToInt32 (Z.shiftl (ToInt32 x) (n mod 32)).
Definition band (x y : Z) : Z := ToInt32 (Z.land (ToInt32 x) (ToInt32 y)).

(** [text.charCodeAt(i)]; [None] stands for [NaN] (index out of range). *)
Definition charCodeAt (text : js_string) (i : nat) : option Z := nth_error text i.

Definition is_high_surrogate (u : Z) : bool := (55296 <=? u) && (u <=? 56319).
Definition is_low_surrogate (u : Z) : bool := (56320 <=? u) && (u <=? 57343).
Definition is_surrogate (u : Z) : bool := (55296 <=? u) && (u <=? 57343).

(** The code point of a surrogate pair. *)
Definition pair_code_point (hi lo : Z) : Z :=
  65536 + (hi - 55296) * 1024 + (lo - 56320).

(** The code points of a string, as the string iterator and [codePointAt]
    read them: a high surrogate followed by a low surrogate is one code
    point, every other code unit is its own code point. *)
Fixpoint code_points (s : js_string) : list Z :=
  match s with
  | [] => []
  | u :: rest =>
      match rest with
      | l :: rest' =>
          if is_high_surrogate u && is_low_surrogate l
          then pair_code_point u l :: code_points rest'
          else u :: code_points rest
      | [] => [u]
      end
  end.

(** The exceptions met in this code: the [DOMException]s
    [InvalidCharacterError] (of [btoa] and [atob]) and [OperationError] (of
    [crypto.subtle]), and the native [RangeError]. *)
Inductive exception := InvalidCharacterError | OperationError | RangeError.

(** A call returns a value or throws. *)
Inductive outcome (A : Type) :=
| Returned (a : A)
| Thrown (e : exception).
Arguments Returned {A} a.
Arguments Thrown {A} e.

(** The engine that runs the code.  A call takes a bounded number of
    arguments; the bound differs between engines (and, where the arguments
    go on the stack, with the stack left).  A spread call [f(...arr)] of an
    array with more elements throws a [RangeError] before [f] is entered. *)
Class Engine := { max_arguments : N }.

End JS.

Module TextHash.

Import JS.
Local Open Scope Z_scope.

(** The body of the [for] loop of [calculateTextHash], from index [i], for
    [n] more iterations. *)
Fixpoint hash_loop (text : js_string) (n i : nat) (hash : Z) : Z :=
  match n with
  | O => hash
  | S n' =>
      match charCodeAt text i with
      | Some char =>
          let hash := (shl hash 5 - hash) + char in
          let hash := band hash hash in
          hash_loop text n' (S i) hash
      | None => hash_loop text n' (S i) 0
      end
  end.

Definition calculateTextHash (text : js_string) : Z :=
  let hash := hash_loop text (length text) 0 0 in
  Z.rem (Z.abs hash) 2147483647.

(** The fingerprint as the specification words it: the rolling hash
    [hash = (hash*31 + c) mod 2^32], two's complement, over a sequence of
    numbers, then [abs(hash) mod (2^31 - 1)]. *)
Definition rolling_hash (cs : list Z) : Z :=
  fold_left (fun hash c => ToInt32 (hash * 31 + c)) cs 0.

Definition reduce_hash (hash : Z) : Z := Z.abs hash mod (2 ^ 31 - 1).

(** ... over the code points of the text. *)
Definition spec_fingerprint (text : js_string) : Z :=
  reduce_hash (rolling_hash (code_points text)).

(** ... over the UTF-16 code units of the text. *)
Definition unit_fingerprint (text : js_string) : Z :=
  reduce_hash (rolling_hash text).

Lemma ToInt32_range x : - 2 ^ 31 <= ToInt32 x < 2 ^ 31.
Proof. unfold ToInt32. pose proof (Z.mod_pos_bound (x + 2 ^ 31) (2 ^ 32)). lia. Qed.

Lemma ToInt32_mod x : ToInt32 x mod 2 ^ 32 = x mod 2 ^ 32.
Proof.
  unfold ToInt32. rewrite Zminus_mod_idemp_l. f_equal. lia.
Qed.

Lemma ToInt32_cong x y : x mod 2 ^ 32 = y mod 2 ^ 32 → ToInt32 x = ToInt32 y.
Proof.
  intros Hxy. unfold ToInt32. f_equal.
  rewrite <- (Zplus_mod_idemp_l x), <- (Zplus_mod_idemp_l y). by rewrite Hxy.
Qed.

Lemma ToInt32_idem x : ToInt32 (ToInt32 x) = ToInt32 x.
Proof. apply ToInt32_cong, ToInt32_mod. Qed.

Lemma band_diag x : band x x = ToInt32 x.
Proof. unfold band. by rewrite Z.land_diag, ToInt32_idem. Qed.

Lemma shl_5 x : shl x 5 = ToInt32 (x * 32).
Proof.
  unfold shl. change (5 mod 32) with 5. rewrite Z.shiftl_mul_pow2 by lia.
  apply ToInt32_cong. change (2 ^ 5) with 32.
  rewrite <- Zmult_mod_idemp_l, ToInt32_mod, Zmult_mod_idemp_l. reflexivity.
Qed.

(** One iteration of the loop is one step of the rolling hash. *)
Lemma hash_step hash char :
  band (shl hash 5 - hash + char) (shl hash 5 - hash + char) =
  ToInt32 (hash * 31 + char).
Proof.
  rewrite band_diag, shl_5. apply ToInt32_cong.
  rewrite <- Zplus_mod_idemp_l, <- Zminus_mod_idemp_l, ToInt32_mod.
  rewrite Zminus_mod_idemp_l, Zplus_mod_idemp_l. f_equal. lia.
Qed.

Lemma hash_loop_fold pre text hash :
  hash_loop (pre ++ text) (length text) (length pre) hash =
  fold_left (fun hash c => ToInt32 (hash * 31 + c)) text hash.
Proof.
  revert pre hash. induction text as [|c text IH]; intros pre hash; simpl; [done|].
  unfold charCodeAt. rewrite nth_error_app2 by lia.
  rewrite Nat.sub_diag. simpl. rewrite hash_step.
  specialize (IH (pre ++ [c]) (ToInt32 (hash * 31 + c))).
  rewrite <- app_assoc, length_app in IH. simpl in IH.
  rewrite Nat.add_1_r in IH. exact IH.
Qed.

Lemma calculateTextHash_unit text : calculateTextHash text = unit_fingerprint text.
Proof.
  unfold calculateTextHash, unit_fingerprint, reduce_hash, rolling_hash.
  pose proof (hash_loop_fold [] text 0) as Hl. simpl in Hl. rewrite Hl.
  rewrite Z.rem_mod_nonneg by lia. reflexivity.
Qed.

Lemma reduce_hash_range hash : 0 <= reduce_hash hash <= 2 ^ 31 - 2.
Proof.
  unfold reduce_hash. pose proof (Z.mod_pos_bound (Z.abs hash) (2 ^ 31 - 1)). lia.
Qed.

Lemma code_points_no_surrogate text :
  forallb (fun u => negb (is_surrogate u)) text = true → code_points text = text.
Proof.
  induction text as [|u text IH]; simpl; [done|].
  intros [Hu Ht]%andb_prop. destruct text as [|l text]; [done|].
  assert (is_high_surrogate u = false) as ->.
  { unfold is_surrogate, is_high_surrogate in *. lia. }
  simpl. f_equal. by apply IH.
Qed.

Example hash_ab : calculateTextHash [97; 98] = 3105.
Proof. reflexivity. Qed.

(** "zzzzzz": the accumulator has wrapped and is negative before [abs]. *)
Example hash_wraps :
  hash_loop [122; 122; 122; 122; 122; 122] 6 0 0 = -685785664 ∧
  calculateTextHash [122; 122; 122; 122; 122; 122] = 685785664.
Proof. split; reflexivity. Qed.

(** C2 (as amended).  For every string, [calculateTextHash] is the rolling
    hash [hash = (hash*31 + c) mod 2^32] (two's complement, from 0) over the
    UTF-16 code units [c] of the string, reduced by [abs(hash) mod (2^31-1)];
    the result lies in [0, 2^31 - 2]; and on a string without surrogate code
    units, where code units and code points coincide, it is the hash over the
    code points. *)
Theorem C2_text_hash (text : js_string) :
  calculateTextHash text =
    Z.abs (fold_left (fun hash c => ToInt32 (hash * 31 + c)) text 0)
      mod (2 ^ 31 - 1) ∧
  0 <= calculateTextHash text <= 2 ^ 31 - 2 ∧
  (forallb (fun u => negb (is_surrogate u)) text = true →
   calculateTextHash text = spec_fingerprint text).
Proof.
  rewrite calculateTextHash_unit. split; [done|]. split.
  - apply reduce_hash_range.
  - intros Hbmp. unfold spec_fingerprint. by rewrite code_points_no_surrogate.
Qed.

Lemma C2_witness : calculateTextHash [97; 98] = spec_fingerprint [97; 98].
Proof. apply (C2_text_hash [97; 98]). reflexivity. Defined.

(** C2, counterexample to the claim as stated: the one-character string
    U+1F600 is the surrogate pair D83D DE00; the loop hashes the two code
    units, not the code point. *)
Lemma C2_counterexample :
  code_points [55357; 56832] = [128512] ∧
  spec_fingerprint [55357; 56832] = 128512 ∧
  calculateTextHash [55357; 56832] = 1772899 ∧
  calculateTextHash [55357; 56832] ≠ spec_fingerprint [55357; 56832].
Proof. repeat split; try reflexivity. vm_compute. discriminate. Qed.

End TextHash.

(* ===================================================================== *)
(** * Part III: the payload cipher, [encryptText] and [decryptText]       *)
(* ===================================================================== *)

(** ** Bytes and typed arrays *)

Module Bytes.

Import JS.
Local Open Scope Z_scope.

Abbreviation byte := Byte.byte (only parsing).

(** A [Uint8Array] is a list of bytes. *)
Abbreviation Uint8Array := (list Byte.byte) (only parsing).

#[global] Instance byte_eq_dec : EqDecision Byte.byte := Byte.byte_eq_dec.

Definition byte_to_Z (b : byte) : Z := Z.of_N (Byte.to_N b).

(** [ToUint8]: the conversion applied when a number is stored in a
    [Uint8Array]. *)
Definition ToUint8 (z : Z) : byte :=
  default Byte.x00 (Byte.of_N (Z.to_N (z mod 256))).

Lemma byte_to_Z_range b : 0 <= byte_to_Z b < 256.
Proof. unfold byte_to_Z. pose proof (Byte.to_N_bounded b). lia. Qed.

Lemma ToUint8_to_Z b : ToUint8 (byte_to_Z b) = b.
Proof.
  unfold ToUint8. pose proof (byte_to_Z_range b) as Hb.
  rewrite Z.mod_small by done. unfold byte_to_Z.
  by rewrite N2Z.id, Byte.of_to_N.
Qed.

Lemma byte_to_Z_ToUint8 z : 0 <= z < 256 → byte_to_Z (ToUint8 z) = z.
Proof.
  intros Hz. unfold ToUint8, byte_to_Z. rewrite Z.mod_small by done.
  destruct (Byte.of_N (Z.to_N z)) as [b|] eqn:E; simpl.
  - apply Byte.to_of_N in E. lia.
  - apply Byte.of_N_None_iff in E. lia.
Qed.

Lemma map_ToUint8_to_Z (bs : list byte) : map ToUint8 (map byte_to_Z bs) = bs.
Proof.
  induction bs as [|b bs IH]; simpl; [done|]. by rewrite ToUint8_to_Z, IH.
Qed.

Definition is_byte_value (z : Z) : bool := (0 <=? z) && (z <? 256).

Lemma map_to_Z_ToUint8 (zs : list Z) :
  forallb is_byte_value zs = true → map byte_to_Z (map ToUint8 zs) = zs.
Proof.
  induction zs as [|z zs IH]; simpl; [done|]. intros [Hz Hzs]%andb_prop.
  rewrite byte_to_Z_ToUint8, IH; [done..|]. unfold is_byte_value in Hz. lia.
Qed.

Lemma forallb_byte_values (bs : list byte) :
  forallb is_byte_value (map byte_to_Z bs) = true.
Proof.
  induction bs as [|b bs IH]; simpl; [done|]. rewrite IH, andb_true_r.
  pose proof (byte_to_Z_range b). unfold is_byte_value. lia.
Qed.

(** [new Uint8Array(n)]: [n] zero bytes. *)
Definition new_Uint8Array (n : nat) : Uint8Array := replicate n Byte.x00.

(** [arr.slice(from, to)] and [arr.slice(from)] for indexes that are not
    negative; indexes past the end are clamped. *)
Definition slice (arr : Uint8Array) (from to : nat) : Uint8Array :=
  drop from (take to arr).
Definition slice_from (arr : Uint8Array) (from : nat) : Uint8Array :=
  drop from arr.

(** The string [String.fromCharCode] makes of the bytes it is given as
    arguments: one code unit per byte. *)
Definition code_units (arr : Uint8Array) : js_string := map byte_to_Z arr.

(** [String.fromCharCode(...arr)]: the spread passes every byte of [arr] as
    an argument of its own, so the call is made only when the engine takes
    [arr.length] arguments. *)
Definition String_fromCharCode `{Engine} (arr : Uint8Array) : outcome js_string :=
  if (N.of_nat (length arr) <=? max_arguments)%N
  then Returned (code_units arr)
  else Thrown RangeError.

(** The string iterator: the string cut into its code points, a surrogate
    pair staying together. *)
Fixpoint string_iterator (s : js_string) : list js_string :=
  match s with
  | [] => []
  | u :: rest =>
      match rest with
      | l :: rest' =>
          if is_high_surrogate u && is_low_surrogate l
          then [u; l] :: string_iterator rest'
          else [u] :: string_iterator rest
      | [] => [[u]]
      end
  end.

(** [Uint8Array.from(str, mapFn)]; a [NaN] from [mapFn] is stored as 0. *)
Definition Uint8Array_from (str : js_string) (mapFn : js_string → option Z)
  : Uint8Array :=
  map (fun c => ToUint8 (default 0 (mapFn c))) (string_iterator str).

Lemma string_iterator_bytes (zs : list Z) :
  forallb is_byte_value zs = true →
  string_iterator zs = map (fun z => [z]) zs.
Proof.
  induction zs as [|z zs IH]; simpl; [done|]. intros [Hz Hzs]%andb_prop.
  destruct zs as [|z' zs]; [done|].
  assert (is_high_surrogate z = false) as ->.
  { unfold is_byte_value, is_high_surrogate in *. lia. }
  simpl. f_equal. by apply IH.
Qed.

Lemma Uint8Array_from_code_units (arr : Uint8Array) :
  Uint8Array_from (code_units arr) (fun c => charCodeAt c 0) = arr.
Proof.
  unfold Uint8Array_from, code_units.
  rewrite string_iterator_bytes by apply forallb_byte_values.
  rewrite !map_map. simpl. rewrite <- (map_ToUint8_to_Z arr) at 2.
  by rewrite map_map.
Qed.

End Bytes.

(** ** [btoa] and [atob]

    Base64 as the platform computes it: [btoa] is RFC 4648 encoding of a
    binary string, [atob] is the forgiving decoder (ASCII whitespace is
    dropped, padding is optional). *)

Module Base64.

Import JS Bytes.
Local Open Scope Z_scope.

(** The character of a 6-bit value, and back. *)
Definition b64_char (i : Z) : Z :=
  if i <? 26 then 65 + i
  else if i <? 52 then 97 + (i - 26)
  else if i <? 62 then 48 + (i - 52)
  else if i =? 62 then 43 else 47.

Definition b64_index (c : Z) : option Z :=
  if (65 <=? c) && (c <=? 90) then Some (c - 65)
  else if (97 <=? c) && (c <=? 122) then Some (c - 71)
  else if (48 <=? c) && (c <=? 57) then Some (c + 4)
  else if c =? 43 then Some 62
  else if c =? 47 then Some 63
  else None.

Definition is_b64_char (c : Z) : bool :=
  match b64_index c with Some _ => true | None => false end.

Definition is_sextet (i : Z) : bool := (0 <=? i) && (i <? 64).

(** The 6-bit groups of a byte sequence; the last group is filled with
    zero bits. *)
Fixpoint sextets (l : list Z) : list Z :=
  match l with
  | a :: b :: c :: rest =>
      a / 4 :: (a mod 4) * 16 + b / 16 :: (b mod 16) * 4 + c / 64 :: c mod 64
        :: sextets rest
  | [a; b] => [a / 4; (a mod 4) * 16 + b / 16; (b mod 16) * 4]
  | [a] => [a / 4; (a mod 4) * 16]
  | [] => []
  end.

Definition padding (n : nat) : list Z :=
  match (n mod 3)%nat with
  | 0%nat => []
  | 1%nat => [61; 61]
  | _ => [61]
  end.

Definition b64_encode (l : list Z) : js_string :=
  map b64_char (sextets l) ++ padding (length l).

Definition btoa (s : js_string) : outcome js_string :=
  if forallb is_byte_value s then Returned (b64_encode s)
  else Thrown InvalidCharacterError.

Definition is_ascii_whitespace (c : Z) : bool :=
  (c =? 9) || (c =? 10) || (c =? 12) || (c =? 13) || (c =? 32).

(** Removes one or two trailing [=]. *)
Definition strip_padding (d : list Z) : list Z :=
  match rev d with
  | x :: y :: r =>
      if x =? 61 then if y =? 61 then rev r else rev (y :: r) else d
  | [x] => if x =? 61 then [] else d
  | [] => d
  end.

(** Bytes of a sequence of 6-bit groups; the bits of an incomplete last
    group are discarded. *)
Fixpoint unsextets (l : list Z) : list Z :=
  match l with
  | a :: b :: c :: d :: rest =>
      a * 4 + b / 16 :: (b mod 16) * 16 + c / 4 :: (c mod 4) * 64 + d
        :: unsextets rest
  | [a; b; c] => [a * 4 + b / 16; (b mod 16) * 16 + c / 4]
  | [a; b] => [a * 4 + b / 16]
  | _ => []
  end.

Definition atob (s : js_string) : outcome js_string :=
  let d := List.filter (fun c => negb (is_ascii_whitespace c)) s in
  let d := if (length d mod 4 =? 0)%nat then strip_padding d else d in
  if (length d mod 4 =? 1)%nat then Thrown InvalidCharacterError
  else if forallb is_b64_char d
       then Returned (unsextets (map (fun c => default 0 (b64_index c)) d))
       else Thrown InvalidCharacterError.

Example btoa_Man : btoa [77; 97; 110] = Returned [84; 87; 70; 117].
Proof. reflexivity. Qed.

Example btoa_Ma : btoa [77; 97] = Returned [84; 87; 69; 61].
Proof. reflexivity. Qed.

Example atob_Ma : atob [84; 87; 69; 61] = Returned [77; 97].
Proof. reflexivity. Qed.

Example atob_unpadded_spaced : atob [84; 32; 87; 69] = Returned [77; 97].
Proof. reflexivity. Qed.

(** *** [atob] inverts [btoa] *)

Lemma list_ind3 {A} (P : list A → Prop) :
  P [] → (∀ a, P [a]) → (∀ a b, P [a; b]) →
  (∀ a b c l, P l → P (a :: b :: c :: l)) → ∀ l, P l.
Proof.
  intros H0 H1 H2 H3 l.
  assert (P l ∧ (∀ a, P (a :: l)) ∧ (∀ a b, P (a :: b :: l))) as [? _]; [|done].
  induction l as [|x l (IH0 & IH1 & IH2)]; [by auto|].
  split; [apply IH1|]. split; [intros a; apply IH2|]. intros a b. by apply H3.
Qed.

Lemma b64_index_char i : is_sextet i = true → b64_index (b64_char i) = Some i.
Proof.
  unfold is_sextet, b64_char, b64_index. intros Hi.
  repeat match goal with
         | |- context [?a <? ?b] => destruct (Z.ltb_spec a b)
         | |- context [?a <=? ?b] => destruct (Z.leb_spec a b)
         | |- context [?a =? ?b] => destruct (Z.eqb_spec a b)
         end; simpl; try lia; f_equal; lia.
Qed.

Lemma sextets_ok l : forallb is_byte_value l = true → forallb is_sextet (sextets l) = true.
Proof.
  induction l as [| a | a b | a b c l IH] using list_ind3; simpl; intros Hl;
    repeat match type of Hl with
           | _ && _ = true => let H1 := fresh in apply andb_prop in Hl as [H1 Hl]
           end;
    unfold is_byte_value, is_sextet in *;
    rewrite ?IH by done; rewrite ?andb_true_r;
    repeat (apply andb_true_intro; split);
    try (Z.div_mod_to_equations; lia).
Qed.

Lemma unsextets_sextets l : forallb is_byte_value l = true → unsextets (sextets l) = l.
Proof.
  induction l as [| a | a b | a b c l IH] using list_ind3; simpl; intros Hl;
    repeat match type of Hl with
           | _ && _ = true => let H1 := fresh in apply andb_prop in Hl as [H1 Hl]
           end;
    unfold is_byte_value in *; rewrite ?IH by done;
    repeat f_equal; try (Z.div_mod_to_equations; lia).
Qed.

Lemma b64_index_chars sx :
  forallb is_sextet sx = true →
  forallb is_b64_char (map b64_char sx) = true ∧
  map (fun c => default 0 (b64_index c)) (map b64_char sx) = sx.
Proof.
  induction sx as [|i sx IH]; simpl; [done|]. intros [Hi Hsx]%andb_prop.
  destruct (IH Hsx) as [IH1 IH2]. unfold is_b64_char at 1.
  rewrite (b64_index_char i Hi). simpl. by rewrite IH1, IH2.
Qed.

Lemma b64_chars_plain sx :
  forallb is_sextet sx = true →
  Forall (fun c => c ≠ 61 ∧ is_ascii_whitespace c = false) (map b64_char sx).
Proof.
  induction sx as [|i sx IH]; simpl; [constructor|]. intros [Hi Hsx]%andb_prop.
  constructor; [|by apply IH].
  unfold is_sextet in Hi. unfold b64_char, is_ascii_whitespace.
  repeat match goal with
         | |- context [?a <? ?b] => destruct (Z.ltb_spec a b)
         | |- context [?a =? ?b] => destruct (Z.eqb_spec a b)
         end; simpl; split; try lia; done.
Qed.

Lemma filter_keeps_all {A} (f : A → bool) (l : list A) :
  Forall (fun x => f x = true) l → List.filter f l = l.
Proof.
  induction 1 as [|x l Hx _ IH]; simpl; [done|]. by rewrite Hx, IH.
Qed.

Lemma strip_padding_none cs : Forall (fun c => c ≠ 61) cs → strip_padding cs = cs.
Proof.
  intros Hcs. unfold strip_padding.
  destruct (rev cs) as [|x [|y r]] eqn:E; [done|..].
  - assert (Hx : x ∈ cs).
    { apply list_elem_of_In, in_rev. rewrite E. by left. }
    rewrite Forall_forall in Hcs. apply Hcs in Hx.
    by destruct (Z.eqb_spec x 61).
  - assert (Hx : x ∈ cs).
    { apply list_elem_of_In, in_rev. rewrite E. by left. }
    rewrite Forall_forall in Hcs. apply Hcs in Hx.
    by destruct (Z.eqb_spec x 61).
Qed.

Lemma strip_padding_one cs :
  Forall (fun c => c ≠ 61) cs → strip_padding (cs ++ [61]) = cs.
Proof.
  intros Hcs. unfold strip_padding. rewrite rev_app_distr. simpl.
  destruct (rev cs) as [|y r] eqn:E.
  - apply (f_equal (@rev Z)) in E. rewrite rev_involutive in E. by subst.
  - assert (Hy : y ∈ cs).
    { apply list_elem_of_In, in_rev. rewrite E. by left. }
    rewrite Forall_forall in Hcs. apply Hcs in Hy.
    destruct (Z.eqb_spec y 61); [done|].
    rewrite <- (rev_involutive cs), E. reflexivity.
Qed.

Lemma strip_padding_two cs : strip_padding (cs ++ [61; 61]) = cs.
Proof.
  unfold strip_padding. rewrite rev_app_distr. simpl. apply rev_involutive.
Qed.

(** The number of 6-bit groups, by the length modulo 3. *)
Lemma sextets_shape (l : list Z) :
  ∃ k : nat,
    ((length l mod 3 = 0 ∧ length (sextets l) = 4 * k) ∨
     (length l mod 3 = 1 ∧ length (sextets l) = 4 * k + 2) ∨
     (length l mod 3 = 2 ∧ length (sextets l) = 4 * k + 3))%nat.
Proof.
  induction l as [| a | a b | a b c l [k IH]] using list_ind3.
  - exists 0%nat. by left.
  - exists 0%nat. right; left. done.
  - exists 0%nat. right; right. done.
  - exists (S k).
    assert (Hm : (length (a :: b :: c :: l) mod 3 = length l mod 3)%nat).
    { change (length (a :: b :: c :: l)) with (3 + length l)%nat.
      replace (3 + length l)%nat with (length l + 1 * 3)%nat by lia.
      apply Nat.Div0.mod_add. }
    rewrite Hm. simpl length. lia.
Qed.

Lemma mod4_of_shape (k r : nat) : (r < 4 → (4 * k + r) mod 4 = r)%nat.
Proof.
  intros Hr. rewrite Nat.add_comm, Nat.mul_comm, Nat.Div0.mod_add.
  by apply Nat.mod_small.
Qed.

Lemma atob_b64_encode l :
  forallb is_byte_value l = true → atob (b64_encode l) = Returned l.
Proof.
  intros Hl. pose proof (sextets_ok l Hl) as Hsx.
  destruct (b64_index_chars _ Hsx) as [Hchars Hidx].
  pose proof (b64_chars_plain _ Hsx) as Hplain.
  assert (Hne : Forall (fun c => c ≠ 61) (map b64_char (sextets l))).
  { eapply Forall_impl; [exact Hplain|]. by intros c [? _]. }
  assert (Hpad : Forall (fun c => negb (is_ascii_whitespace c) = true)
                        (padding (length l))).
  { unfold padding. destruct (length l mod 3)%nat as [|[|?]]; repeat constructor. }
  unfold atob, b64_encode.
  rewrite filter_keeps_all; last first.
  { apply Forall_app. split; [|done].
    eapply Forall_impl; [exact Hplain|]. by intros c [_ ->]. }
  assert (Hstrip :
    (if (length (map b64_char (sextets l) ++ padding (length l)) mod 4 =? 0)%nat
     then strip_padding (map b64_char (sextets l) ++ padding (length l))
     else map b64_char (sextets l) ++ padding (length l))
    = map b64_char (sextets l) ∧
    (length (map b64_char (sextets l)) mod 4 =? 1)%nat = false).
  { rewrite length_app, length_map. unfold padding.
    destruct (sextets_shape l) as (k & [[-> Hk]|[[-> Hk]|[-> Hk]]]); rewrite Hk; simpl length.
    - rewrite Nat.add_0_r, <- (Nat.add_0_r (4 * k)), mod4_of_shape by lia.
      simpl. rewrite app_nil_r. split; [by apply strip_padding_none|done].
    - replace (4 * k + 2 + 2)%nat with (4 * (S k) + 0)%nat by lia.
      rewrite !mod4_of_shape by lia. simpl. split; [apply strip_padding_two|done].
    - replace (4 * k + 3 + 1)%nat with (4 * (S k) + 0)%nat by lia.
      rewrite !mod4_of_shape by lia. simpl.
      split; [by apply strip_padding_one|done]. }
  destruct Hstrip as [-> ->]. rewrite Hchars, Hidx.
  by rewrite unsextets_sextets.
Qed.

Lemma atob_btoa (arr : Uint8Array) :
  btoa (code_units arr) = Returned (b64_encode (map byte_to_Z arr)) ∧
  atob (b64_encode (map byte_to_Z arr)) = Returned (code_units arr).
Proof.
  unfold btoa, code_units. rewrite forallb_byte_values.
  split; [done|]. apply atob_b64_encode, forallb_byte_values.
Qed.

End Base64.

(** ** [TextEncoder] and [TextDecoder]

    UTF-8 as the Encoding Standard defines it.  The encoder first converts
    the string to scalar values (a lone surrogate becomes U+FFFD); the
    decoder is the standard's byte-by-byte state machine, after which a
    leading U+FEFF is dropped ([ignoreBOM] is false by default). *)

Module Encoding.

Import JS Bytes.
Local Open Scope Z_scope.

Definition REPLACEMENT : Z := 65533.
Definition BOM : Z := 65279.

Fixpoint scalar_values (s : js_string) : list Z :=
  match s with
  | [] => []
  | u :: rest =>
      if is_high_surrogate u then
        match rest with
        | l :: rest' =>
            if is_low_surrogate l
            then pair_code_point u l :: scalar_values rest'
            else REPLACEMENT :: scalar_values rest
        | [] => [REPLACEMENT]
        end
      else if is_low_surrogate u then REPLACEMENT :: scalar_values rest
      else u :: scalar_values rest
  end.

Definition utf8_bytes (cp : Z) : list Z :=
  if cp <? 128 then [cp]
  else if cp <? 2048 then [192 + cp / 64; 128 + cp mod 64]
  else if cp <? 65536 then
    [224 + cp / 4096; 128 + (cp / 64) mod 64; 128 + cp mod 64]
  else
    [240 + cp / 262144; 128 + (cp / 4096) mod 64; 128 + (cp / 64) mod 64;
     128 + cp mod 64].

Definition TextEncoder_encode (text : js_string) : Uint8Array :=
  map ToUint8 (flat_map utf8_bytes (scalar_values text)).

(** The decoder's state: code point under construction, bytes seen and
    needed, and the bounds of the next continuation byte. *)
Record decoder := mkDecoder {
  code_point : Z;
  bytes_seen : Z;
  bytes_needed : Z;
  lower : Z;
  upper : Z
}.

Definition decoder0 : decoder := mkDecoder 0 0 0 128 191.

(** A byte read when no bytes are needed. *)
Definition lead (b : Z) : list Z * decoder :=
  if b <=? 127 then ([b], decoder0)
  else if (194 <=? b) && (b <=? 223) then ([], mkDecoder (b - 192) 0 1 128 191)
  else if (224 <=? b) && (b <=? 239) then
    ([], mkDecoder (b - 224) 0 2
                   (if b =? 224 then 160 else 128) (if b =? 237 then 159 else 191))
  else if (240 <=? b) && (b <=? 244) then
    ([], mkDecoder (b - 240) 0 3
                   (if b =? 240 then 144 else 128) (if b =? 244 then 143 else 191))
  else ([REPLACEMENT], decoder0).

(** One byte: the code points emitted and the next state.  A byte outside
    the bounds ends the sequence with an error and is read again as a lead
    byte. *)
Definition decode_byte (d : decoder) (b : Z) : list Z * decoder :=
  if bytes_needed d =? 0 then lead b
  else if (lower d <=? b) && (b <=? upper d) then
    let cp := code_point d * 64 + (b - 128) in
    if bytes_seen d + 1 =? bytes_needed d then ([cp], decoder0)
    else ([], mkDecoder cp (bytes_seen d + 1) (bytes_needed d) 128 191)
  else (REPLACEMENT :: fst (lead b), snd (lead b)).

Fixpoint utf8_decode (d : decoder) (bs : list Z) : list Z :=
  match bs with
  | [] => if bytes_needed d =? 0 then [] else [REPLACEMENT]
  | b :: rest =>
      fst (decode_byte d b) ++ utf8_decode (snd (decode_byte d b)) rest
  end.

Definition utf16_units (cp : Z) : list Z :=
  if cp <? 65536 then [cp]
  else [55296 + (cp - 65536) / 1024; 56320 + (cp - 65536) mod 1024].

Definition strip_bom (cps : list Z) : list Z :=
  match cps with
  | cp :: rest => if cp =? BOM then rest else cps
  | [] => []
  end.

Definition TextDecoder_decode (bs : Uint8Array) : js_string :=
  flat_map utf16_units (strip_bom (utf8_decode decoder0 (map byte_to_Z bs))).

(** Strings that are well-formed UTF-16: code units in range, every
    surrogate part of a pair. *)
Fixpoint well_formed (s : js_string) : bool :=
  match s with
  | [] => true
  | u :: rest =>
      if is_high_surrogate u then
        match rest with
        | l :: rest' => is_low_surrogate l && well_formed rest'
        | [] => false
        end
      else negb (is_low_surrogate u) && is_code_unit u && well_formed rest
  end.

Definition is_scalar (cp : Z) : bool :=
  (0 <=? cp) && (cp <? 1114112) && negb (is_surrogate cp).

(** "hé€😀" and back. *)
Example encode_sample :
  map byte_to_Z (TextEncoder_encode [104; 233; 8364; 55357; 56832]) =
  [104; 195; 169; 226; 130; 172; 240; 159; 152; 128].
Proof. reflexivity. Qed.

Example decode_sample :
  TextDecoder_decode (TextEncoder_encode [104; 233; 8364; 55357; 56832]) =
  [104; 233; 8364; 55357; 56832].
Proof. reflexivity. Qed.

(** A lone surrogate is replaced, a leading U+FEFF is dropped, an
    overlong or truncated sequence is an error. *)
Example decode_lone_surrogate :
  TextDecoder_decode (TextEncoder_encode [55357]) = [65533].
Proof. reflexivity. Qed.

Example decode_bom :
  TextDecoder_decode (TextEncoder_encode [65279; 104]) = [104].
Proof. reflexivity. Qed.

Example decode_invalid :
  TextDecoder_decode (map ToUint8 [192; 128; 226; 130; 65]) =
  [65533; 65533; 65533; 65].
Proof. reflexivity. Qed.

(** *** Decoding inverts encoding on scalar values *)

Ltac split_tests :=
  repeat match goal with
         | |- context [?a <=? ?b] => destruct (Z.leb_spec a b)
         | |- context [?a <? ?b] => destruct (Z.ltb_spec a b)
         | |- context [?a =? ?b] => destruct (Z.eqb_spec a b)
         end.

Lemma is_scalar_spec cp :
  is_scalar cp = true ↔ 0 <= cp < 1114112 ∧ ¬ (55296 <= cp <= 57343).
Proof. unfold is_scalar, is_surrogate. split_tests; simpl; split; try done; lia. Qed.

Lemma utf8_bytes_are_bytes cp :
  is_scalar cp = true → forallb is_byte_value (utf8_bytes cp) = true.
Proof.
  rewrite is_scalar_spec. intros [Hr _]. unfold utf8_bytes, is_byte_value.
  destruct (Z.ltb_spec cp 128); [|destruct (Z.ltb_spec cp 2048);
    [|destruct (Z.ltb_spec cp 65536)]]; simpl;
    repeat (apply andb_true_intro; split); try done;
    apply Z.leb_le || apply Z.ltb_lt; Z.div_mod_to_equations; lia.
Qed.

Lemma utf8_decode_cons d b rest :
  utf8_decode d (b :: rest) =
  fst (decode_byte d b) ++ utf8_decode (snd (decode_byte d b)) rest.
Proof. reflexivity. Qed.

Lemma decode_lead b rest :
  utf8_decode decoder0 (b :: rest) = fst (lead b) ++ utf8_decode (snd (lead b)) rest.
Proof. reflexivity. Qed.

(** A continuation byte within bounds: the last one of its sequence, or
    one more to come. *)
Lemma decode_last cp seen needed lo hi b rest :
  needed ≠ 0 → lo <= b <= hi → seen + 1 = needed →
  utf8_decode (mkDecoder cp seen needed lo hi) (b :: rest) =
  cp * 64 + (b - 128) :: utf8_decode decoder0 rest.
Proof.
  intros Hn Hb Hlast. rewrite utf8_decode_cons. unfold decode_byte. simpl.
  destruct (Z.eqb_spec needed 0); [done|].
  destruct (Z.leb_spec lo b); [|lia]. destruct (Z.leb_spec b hi); [|lia]. simpl.
  by destruct (Z.eqb_spec (seen + 1) needed).
Qed.

Lemma decode_more cp seen needed lo hi b rest :
  needed ≠ 0 → lo <= b <= hi → seen + 1 ≠ needed →
  utf8_decode (mkDecoder cp seen needed lo hi) (b :: rest) =
  utf8_decode (mkDecoder (cp * 64 + (b - 128)) (seen + 1) needed 128 191) rest.
Proof.
  intros Hn Hb Hmore. rewrite utf8_decode_cons. unfold decode_byte. simpl.
  destruct (Z.eqb_spec needed 0); [done|].
  destruct (Z.leb_spec lo b); [|lia]. destruct (Z.leb_spec b hi); [|lia]. simpl.
  by destruct (Z.eqb_spec (seen + 1) needed).
Qed.

Lemma lead_ascii b : 0 <= b < 128 → lead b = ([b], decoder0).
Proof. intros Hb. unfold lead. destruct (Z.leb_spec b 127); [done|lia]. Qed.

Lemma lead_two b :
  194 <= b <= 223 → lead b = ([], mkDecoder (b - 192) 0 1 128 191).
Proof. intros Hb. unfold lead. split_tests; simpl; try lia; done. Qed.

Lemma lead_three b :
  224 <= b <= 239 →
  lead b = ([], mkDecoder (b - 224) 0 2 (if b =? 224 then 160 else 128)
                          (if b =? 237 then 159 else 191)).
Proof.
  intros Hb. unfold lead.
  destruct (Z.leb_spec b 127); [lia|].
  destruct (Z.leb_spec 194 b); [|lia]. destruct (Z.leb_spec b 223); [lia|].
  destruct (Z.leb_spec 224 b); [|lia]. destruct (Z.leb_spec b 239); [|lia].
  done.
Qed.

Lemma lead_four b :
  240 <= b <= 244 →
  lead b = ([], mkDecoder (b - 240) 0 3 (if b =? 240 then 144 else 128)
                          (if b =? 244 then 143 else 191)).
Proof.
  intros Hb. unfold lead.
  destruct (Z.leb_spec b 127); [lia|].
  destruct (Z.leb_spec 194 b); [|lia]. destruct (Z.leb_spec b 223); [lia|].
  destruct (Z.leb_spec 224 b); [|lia]. destruct (Z.leb_spec b 239); [lia|].
  destruct (Z.leb_spec 240 b); [|lia]. destruct (Z.leb_spec b 244); [|lia].
  done.
Qed.

Lemma utf8_decode_bytes cp rest :
  is_scalar cp = true →
  utf8_decode decoder0 (utf8_bytes cp ++ rest) = cp :: utf8_decode decoder0 rest.
Proof.
  rewrite is_scalar_spec. intros [Hr Hs]. unfold utf8_bytes.
  destruct (Z.ltb_spec cp 128) as [H1|H1];
    [|destruct (Z.ltb_spec cp 2048) as [H2|H2];
      [|destruct (Z.ltb_spec cp 65536) as [H3|H3]]]; cbn [app].
  - rewrite decode_lead, lead_ascii by lia. done.
  - rewrite decode_lead, lead_two by (Z.div_mod_to_equations; lia). cbn [fst snd app].
    rewrite decode_last by (try done; Z.div_mod_to_equations; lia).
    f_equal. Z.div_mod_to_equations; lia.
  - rewrite decode_lead, lead_three by (Z.div_mod_to_equations; lia).
    cbn [fst snd app].
    rewrite decode_more; [| done | | done].
    + rewrite decode_last by (try done; Z.div_mod_to_equations; lia).
      f_equal. Z.div_mod_to_equations; lia.
    + split_tests; Z.div_mod_to_equations; lia.
  - rewrite decode_lead, lead_four by (Z.div_mod_to_equations; lia).
    cbn [fst snd app].
    rewrite decode_more; [| done | | done].
    + rewrite decode_more by (try done; Z.div_mod_to_equations; lia).
      rewrite decode_last by (try done; Z.div_mod_to_equations; lia).
      f_equal. Z.div_mod_to_equations; lia.
    + split_tests; Z.div_mod_to_equations; lia.
Qed.

Lemma utf8_decode_encode cps :
  forallb is_scalar cps = true →
  forallb is_byte_value (flat_map utf8_bytes cps) = true ∧
  utf8_decode decoder0 (flat_map utf8_bytes cps) = cps.
Proof.
  induction cps as [|cp cps IH]; simpl; [done|]. intros [Hcp Hcps]%andb_prop.
  destruct (IH Hcps) as [IH1 IH2]. split.
  - rewrite forallb_app, IH1, andb_true_r. by apply utf8_bytes_are_bytes.
  - rewrite utf8_decode_bytes by done. by rewrite IH2.
Qed.

(** *** Well-formed strings survive the conversion to scalar values *)

Lemma pair_scalar u l :
  is_high_surrogate u = true → is_low_surrogate l = true →
  is_scalar (pair_code_point u l) = true ∧
  utf16_units (pair_code_point u l) = [u; l] ∧
  pair_code_point u l ≠ BOM.
Proof.
  unfold is_high_surrogate, is_low_surrogate, pair_code_point, BOM.
  intros Hu Hl. split; [|split].
  - apply is_scalar_spec. lia.
  - unfold utf16_units.
    destruct (Z.ltb_spec (65536 + (u - 55296) * 1024 + (l - 56320)) 65536); [lia|].
    f_equal; [|f_equal]; Z.div_mod_to_equations; lia.
  - lia.
Qed.

Lemma unit_scalar u :
  is_high_surrogate u = false → is_low_surrogate u = false →
  is_code_unit u = true →
  is_scalar u = true ∧ utf16_units u = [u].
Proof.
  unfold is_high_surrogate, is_low_surrogate, is_code_unit.
  intros Hh Hl Hu. split.
  - apply is_scalar_spec. lia.
  - unfold utf16_units. destruct (Z.ltb_spec u 65536); [done|lia].
Qed.

Lemma scalar_values_well_formed s :
  well_formed s = true →
  forallb is_scalar (scalar_values s) = true ∧
  flat_map utf16_units (scalar_values s) = s.
Proof.
  remember (length s) as n eqn:Hn. revert s Hn.
  induction n as [n IH] using lt_wf_ind. intros s Hn Hwf.
  destruct s as [|u rest]; [done|]. simpl in Hwf |- *.
  destruct (is_high_surrogate u) eqn:Hh.
  - destruct rest as [|l rest']; [done|].
    apply andb_prop in Hwf as [Hl Hwf]. rewrite Hl.
    destruct (pair_scalar u l Hh Hl) as (Hsc & Hun & _).
    destruct (IH (length rest')) with (s := rest') as [IH1 IH2];
      [simpl in Hn; lia|done..|].
    simpl. rewrite Hsc, IH1, Hun, IH2. done.
  - apply andb_prop in Hwf as [[Hl Hu]%andb_prop Hwf].
    apply negb_true_iff in Hl. rewrite Hl.
    destruct (unit_scalar u Hh Hl Hu) as [Hsc Hun].
    destruct (IH (length rest)) with (s := rest) as [IH1 IH2];
      [simpl in Hn; lia|done..|].
    simpl. rewrite Hsc, IH1, Hun, IH2. done.
Qed.



End Encoding.

(** ** [encryptText] and [decryptText] *)

Module Payload.

Import JS Bytes Base64 Encoding.

(** Web Crypto is an external collaborator: PBKDF2 key derivation
    ([importKey] then [deriveKey], with the iteration count and the key
    length in bits) and AES-GCM.  Decryption returns [None] when the tag does
    not verify. *)
Class WebCrypto := {
  CryptoKey : Type;
  PBKDF2_SHA256_deriveKey : Uint8Array → Uint8Array → Z → Z → CryptoKey;
  AES_GCM_encrypt : CryptoKey → Uint8Array → Uint8Array → Uint8Array;
  AES_GCM_decrypt : CryptoKey → Uint8Array → Uint8Array → option Uint8Array
}.

(** What is assumed of AES-GCM: under the same key and 96-bit nonce,
    decryption returns what was encrypted. *)
Class WebCryptoCorrect (W : WebCrypto) : Prop :=
  decrypt_encrypt : ∀ key iv data,
    length iv = 12%nat → AES_GCM_decrypt key iv (AES_GCM_encrypt key iv data) = Some data.

(** The random source: a tape of bytes and a read position. *)
Record Rng := mkRng { tape : nat → byte; pos : nat }.

(** [crypto.getRandomValues(arr)]: fills [arr]. *)
Definition getRandomValues (arr : Uint8Array) (rng : Rng) : Uint8Array * Rng :=
  (map (tape rng) (seq (pos rng) (length arr)),
   mkRng (tape rng) (pos rng + length arr)).

#[global] Instance outcome_ret : MRet outcome := fun A a => Returned a.
#[global] Instance outcome_bind : MBind outcome := fun A B k m =>
  match m with
  | Returned a => k a
  | Thrown e => Thrown e
  end.

(** [arr.set(src, offset)]: a [RangeError] when [src] does not fit. *)
Definition Uint8Array_set (arr src : Uint8Array) (offset : nat) : outcome Uint8Array :=
  if (offset + length src <=? length arr)%nat
  then Returned (take offset arr ++ src ++ drop (offset + length src) arr)
  else Thrown RangeError.

Section Cipher.
Context `{WebCrypto} `{E : Engine}.

Definition deriveKey (password : js_string) (salt : Uint8Array) : CryptoKey :=
  PBKDF2_SHA256_deriveKey (TextEncoder_encode password) salt 100000 256.

Definition encryptText (text password : js_string) (rng : Rng) : outcome js_string :=
  let data := TextEncoder_encode text in
  let '(salt, rng) := getRandomValues (new_Uint8Array 16) rng in
  let '(iv, rng) := getRandomValues (new_Uint8Array 12) rng in
  let key := deriveKey password salt in
  let encrypted := AES_GCM_encrypt key iv data in
  let combined := new_Uint8Array (length salt + length iv + length encrypted) in
  combined ← Uint8Array_set combined salt 0;
  combined ← Uint8Array_set combined iv (length salt);
  combined ← Uint8Array_set combined encrypted (length salt + length iv);
  binary ← String_fromCharCode combined;
  btoa binary.

Definition decryptText (encryptedData password : js_string) : outcome js_string :=
  binary ← atob encryptedData;
  let combined := Uint8Array_from binary (fun c => charCodeAt c 0) in
  let salt := slice combined 0 16 in
  let iv := slice combined 16 28 in
  let encrypted := slice_from combined 28 in
  let key := deriveKey password salt in
  match AES_GCM_decrypt key iv encrypted with
  | Some decrypted => Returned (TextDecoder_decode decrypted)
  | None => Thrown OperationError
  end.

(** The three parts of the blob [encryptText] builds from [rng]. *)
Definition salt_of (rng : Rng) : Uint8Array :=
  fst (getRandomValues (new_Uint8Array 16) rng).

Definition iv_of (rng : Rng) : Uint8Array :=
  fst (getRandomValues (new_Uint8Array 12)
         (snd (getRandomValues (new_Uint8Array 16) rng))).

Definition ciphertext_of (text password : js_string) (rng : Rng) : Uint8Array :=
  AES_GCM_encrypt (deriveKey password (salt_of rng)) (iv_of rng)
                  (TextEncoder_encode text).

Lemma length_salt_of rng : length (salt_of rng) = 16%nat.
Proof.
  unfold salt_of, getRandomValues. cbn [fst].
  rewrite length_map, length_seq. apply length_replicate.
Qed.

Lemma length_iv_of rng : length (iv_of rng) = 12%nat.
Proof.
  unfold iv_of, getRandomValues. cbn [fst].
  rewrite length_map, length_seq. apply length_replicate.
Qed.

Lemma Uint8Array_set_zeros (pre src : Uint8Array) (n : nat) :
  Uint8Array_set (pre ++ new_Uint8Array (length src + n)) src (length pre) =
  Returned ((pre ++ src) ++ new_Uint8Array n).
Proof.
  unfold Uint8Array_set, new_Uint8Array.
  rewrite length_app, length_replicate.
  destruct (Nat.leb_spec (length pre + length src) (length pre + (length src + n)));
    [|lia].
  rewrite take_app_length, drop_app_add', drop_replicate by done.
  replace (length src + n - length src)%nat with n by lia.
  by rewrite <- app_assoc.
Qed.

(** The spread call of [encryptText] has one argument for every byte of the
    salt, the nonce and the ciphertext with its tag. *)
Definition arguments_fit (text password : js_string) (rng : Rng) : Prop :=
  (N.of_nat (28 + length (ciphertext_of text password rng)) ≤ max_arguments)%N.

Lemma encryptText_unfold text password rng :
  encryptText text password rng =
  String_fromCharCode
    (salt_of rng ++ iv_of rng ++ ciphertext_of text password rng) ≫= btoa.
Proof.
  unfold encryptText.
  change (getRandomValues (new_Uint8Array 16) rng)
    with (salt_of rng, snd (getRandomValues (new_Uint8Array 16) rng)).
  cbv beta iota zeta.
  change (getRandomValues (new_Uint8Array 12)
            (snd (getRandomValues (new_Uint8Array 16) rng)))
    with (iv_of rng,
          snd (getRandomValues (new_Uint8Array 12)
                 (snd (getRandomValues (new_Uint8Array 16) rng)))).
  cbv beta iota zeta. fold (ciphertext_of text password rng).
  set (salt := salt_of rng). set (iv := iv_of rng).
  set (ct := ciphertext_of text password rng).
  pose proof (Uint8Array_set_zeros [] salt (length iv + length ct)) as H1.
  pose proof (Uint8Array_set_zeros salt iv (length ct)) as H2.
  pose proof (Uint8Array_set_zeros (salt ++ iv) ct 0) as H3.
  rewrite !app_nil_l, Nat.add_assoc in H1. change (length []) with 0%nat in H1.
  rewrite Nat.add_0_r, length_app in H3.
  unfold mbind at 1 2 3, outcome_bind. rewrite H1, H2, H3.
  unfold new_Uint8Array. change (replicate 0 Byte.x00) with (@nil Byte.byte).
  by rewrite app_nil_r, <- app_assoc.
Qed.

Lemma length_combined text password rng :
  length (salt_of rng ++ iv_of rng ++ ciphertext_of text password rng) =
  (28 + length (ciphertext_of text password rng))%nat.
Proof. rewrite !length_app, length_salt_of, length_iv_of. lia. Qed.

Lemma spread_accepted text password rng :
  arguments_fit text password rng →
  String_fromCharCode
    (salt_of rng ++ iv_of rng ++ ciphertext_of text password rng) =
  Returned (code_units
    (salt_of rng ++ iv_of rng ++ ciphertext_of text password rng)).
Proof.
  intros Hfit. unfold String_fromCharCode. rewrite length_combined.
  by rewrite (proj2 (N.leb_le _ _) Hfit).
Qed.

Lemma spread_refused text password rng :
  ¬ arguments_fit text password rng →
  String_fromCharCode
    (salt_of rng ++ iv_of rng ++ ciphertext_of text password rng) =
  Thrown RangeError.
Proof.
  intros Hfit. unfold String_fromCharCode. rewrite length_combined.
  destruct (N.leb_spec (N.of_nat (28 + length (ciphertext_of text password rng)))
              max_arguments) as [Hle|Hlt]; [by destruct Hfit|done].
Qed.

Lemma slice_offsets (combined : Uint8Array) :
  slice combined 0 16 = take 16 combined ∧
  slice combined 16 28 = take 12 (drop 16 combined) ∧
  slice_from combined 28 = drop 28 combined.
Proof.
  unfold slice, slice_from. split; [done|]. split; [|done].
  by rewrite take_drop_commute.
Qed.

Lemma decryptText_unfold encryptedData binary password :
  atob encryptedData = Returned binary →
  decryptText encryptedData password =
  match AES_GCM_decrypt
          (deriveKey password
             (take 16 (Uint8Array_from binary (fun c => charCodeAt c 0))))
          (take 12 (drop 16 (Uint8Array_from binary (fun c => charCodeAt c 0))))
          (drop 28 (Uint8Array_from binary (fun c => charCodeAt c 0)))
  with
  | Some decrypted => Returned (TextDecoder_decode decrypted)
  | None => Thrown OperationError
  end.
Proof.
  intros Hb. unfold decryptText. rewrite Hb. unfold mbind, outcome_bind.
  destruct (slice_offsets (Uint8Array_from binary (fun c => charCodeAt c 0)))
    as (-> & -> & ->).
  done.
Qed.

Lemma parse_sealed (salt iv ct : Uint8Array) :
  length salt = 16%nat → length iv = 12%nat →
  take 16 (salt ++ iv ++ ct) = salt ∧
  take 12 (drop 16 (salt ++ iv ++ ct)) = iv ∧
  drop 28 (salt ++ iv ++ ct) = ct.
Proof.
  intros Hs Hi. split; [|split].
  - rewrite <- Hs. apply take_app_length.
  - rewrite <- Hs, drop_app_length, <- Hi. apply take_app_length.
  - rewrite app_assoc. replace 28%nat with (length (salt ++ iv)).
    + apply drop_app_length.
    + rewrite length_app. lia.
Qed.

(** When the spread call is accepted, the blob is the base64 text of
    [salt ++ iv ++ ciphertext]; [atob] gives these bytes back. *)
Lemma sealed_blob text password rng :
  arguments_fit text password rng →
  encryptText text password rng =
    Returned (b64_encode (map byte_to_Z
      (salt_of rng ++ iv_of rng ++ ciphertext_of text password rng))).
Proof.
  intros Hfit. rewrite encryptText_unfold, spread_accepted by done.
  apply atob_btoa.
Qed.

(** When it is refused, [encryptText] rethrows the [RangeError]. *)
Lemma sealed_too_long text password rng :
  ¬ arguments_fit text password rng →
  encryptText text password rng = Thrown RangeError.
Proof.
  intros Hfit. by rewrite encryptText_unfold, spread_refused.
Qed.



(** Decrypting what was sealed: the plaintext comes back through
    [TextEncoder] and [TextDecoder]. *)
Lemma decrypt_sealed `{!WebCryptoCorrect H} text password rng :
  arguments_fit text password rng →
  ∃ blob, encryptText text password rng = Returned blob ∧
          decryptText blob password =
            Returned (TextDecoder_decode (TextEncoder_encode text)).
Proof.
  intros Hfit. eexists. split; [by apply sealed_blob|].
  rewrite (decryptText_unfold _ _ _ (proj2 (atob_btoa _))),
    Uint8Array_from_code_units.
  destruct (parse_sealed (salt_of rng) (iv_of rng) (ciphertext_of text password rng)
              (length_salt_of rng) (length_iv_of rng)) as (-> & -> & ->).
  unfold ciphertext_of. by rewrite decrypt_encrypt by apply length_iv_of.
Qed.





End Cipher.

(** ** A model cipher, for closed examples

    The key is the passphrase bytes followed by the salt; encryption shifts
    every byte by the key length and appends a 16-byte tag. *)

Definition model_tag : Uint8Array := replicate 16 Byte.x2a.

Definition model_shift (key : Uint8Array) (b : byte) : byte :=
  ToUint8 (byte_to_Z b + Z.of_nat (length key))%Z.

Definition model_unshift (key : Uint8Array) (b : byte) : byte :=
  ToUint8 (byte_to_Z b - Z.of_nat (length key))%Z.

Definition modelCrypto : WebCrypto := {|
  CryptoKey := Uint8Array;
  PBKDF2_SHA256_deriveKey := fun password salt _ _ => password ++ salt;
  AES_GCM_encrypt := fun key iv data => map (model_shift key) data ++ model_tag;
  AES_GCM_decrypt := fun key iv c =>
    if decide (drop (length c - 16) c = model_tag)
    then Some (map (model_unshift key) (take (length c - 16) c))
    else None
|}.

Lemma ToUint8_mod z : ToUint8 (z mod 256)%Z = ToUint8 z.
Proof. unfold ToUint8. by rewrite Z.mod_mod. Qed.

Lemma byte_to_Z_ToUint8_mod z : byte_to_Z (ToUint8 z) = (z mod 256)%Z.
Proof.
  rewrite <- ToUint8_mod. apply byte_to_Z_ToUint8. apply Z.mod_pos_bound. lia.
Qed.

Lemma model_unshift_shift key b : model_unshift key (model_shift key b) = b.
Proof.
  unfold model_unshift, model_shift. set (k := Z.of_nat (length key)).
  rewrite byte_to_Z_ToUint8_mod.
  rewrite <- (ToUint8_mod (_ - _)), Zminus_mod_idemp_l.
  replace (byte_to_Z b + k - k)%Z with (byte_to_Z b) by lia.
  rewrite ToUint8_mod. apply ToUint8_to_Z.
Qed.

Lemma modelCrypto_correct : WebCryptoCorrect modelCrypto.
Proof.
  unfold WebCryptoCorrect. simpl. intros key iv data _.
  assert (Hlen : (length (map (model_shift key) data ++ model_tag) - 16 =
                  length (map (model_shift key) data))%nat).
  { rewrite length_app. unfold model_tag. rewrite length_replicate. lia. }
  rewrite Hlen, drop_app_length, take_app_length.
  rewrite decide_True by done. f_equal.
  rewrite map_map. clear Hlen.
  induction data as [|b data IH]; simpl; [done|].
  by rewrite model_unshift_shift, IH.
Qed.

(** The tape 0, 1, 2, ...: the salt is bytes 0-15, the nonce bytes 16-27. *)
Definition countingRng : Rng := mkRng (fun i => ToUint8 (Z.of_nat i)) 0.

(** An engine that takes up to 65536 arguments, the limit fixed in
    JavaScriptCore. *)
Definition engine65536 : Engine := {| max_arguments := 65536 |}.

Local Open Scope Z_scope.



Lemma hi_fits :
  arguments_fit (H := modelCrypto) (E := engine65536) [104; 105] [107] countingRng.
Proof. vm_compute. discriminate. Defined.

Lemma length_encode_ascii (n : nat) :
  length (TextEncoder_encode (replicate n 97)) = n.
Proof.
  unfold TextEncoder_encode. rewrite length_map.
  induction n as [|n IH]; [done|].
  change (scalar_values (replicate (S n) 97))
    with (97 :: scalar_values (replicate n 97)).
  simpl. by rewrite IH.
Qed.

Lemma length_model_ciphertext text password rng :
  length (ciphertext_of (H := modelCrypto) text password rng) =
  (length (TextEncoder_encode text) + 16)%nat.
Proof.
  unfold ciphertext_of. cbn [AES_GCM_encrypt modelCrypto].
  by rewrite length_app, length_map.
Qed.

(** A text of 65536 letters "a" is refused by this engine: its 65580 bytes
    are more arguments than the call may have. *)
Example long_text_throws :
  encryptText (H := modelCrypto) (E := engine65536)
    (replicate (N.to_nat 65536) 97) [107] countingRng = Thrown RangeError.
Proof.
  apply sealed_too_long. unfold arguments_fit.
  rewrite length_model_ciphertext, length_encode_ascii.
  change (max_arguments (Engine := engine65536)) with 65536%N. lia.
Qed.



(** The same loss on a lone surrogate: it comes back as U+FFFD. *)
Example lone_surrogate_lost :
  ∃ blob,
    encryptText (H := modelCrypto) (E := engine65536) [55357] [107] countingRng =
      Returned blob ∧
    decryptText (H := modelCrypto) blob [107] = Returned [65533].
Proof.
  assert (Hfit : arguments_fit (H := modelCrypto) (E := engine65536)
                   [55357] [107] countingRng)
    by (vm_compute; discriminate).
  destruct (decrypt_sealed (H := modelCrypto) (E := engine65536)
              (WebCryptoCorrect0 := modelCrypto_correct)
              [55357] [107] countingRng Hfit) as (blob & He & Hd).
  exists blob. split; [done|]. rewrite Hd. reflexivity.
Qed.



End Payload.

(* ===================================================================== *)
(** * Part IV: further properties of the contract                         *)
(* ===================================================================== *)

Module VaultFacts.

Import LawVault.
Local Open Scope N_scope.

Section Facts.
Context `{FHE}.

(** ** The read functions *)

Definition fields_of (c : Contract)
  : string * address * address * ContractStatus * uint256 * uint256 * uint256 :=
  (title c, lawyer c, client c, status c, createdAt c, clientApprovedAt c,
   lawyerConfirmedAt c).

Lemma getContract_unfold i s :
  getContract i s =
  if exists_ (contract_at s i) then Ok (fields_of (contract_at s i), s)
  else Revert "Contract does not exist".
Proof.
  unfold getContract, mbind, M_bind, require, gets; simpl.
  by destruct (exists_ (contract_at s i)).
Qed.

Lemma exists_below s i :
  wf_state s → exists_ (contract_at s i) = true ↔ i < totalContracts s.
Proof.
  intros Hwf. split.
  - intros Hex. apply contract_at_exists in Hex. by apply (wf_range _ Hwf) in Hex.
  - intros Hlt. destruct (wf_dense _ Hwf _ Hlt) as [c Hc].
    rewrite (contract_at_lookup _ _ _ Hc). by destruct (wf_exists _ Hwf _ _ Hc).
Qed.

Lemma not_exists_above s i :
  wf_state s → totalContracts s ≤ i → exists_ (contract_at s i) = false.
Proof.
  intros Hwf Hle. destruct (exists_ (contract_at s i)) eqn:E; [|done].
  apply exists_below in E; [lia|done].
Qed.

(** X1. In every reachable state the records that exist are exactly the
    ids below [totalContracts]: [contractExists] answers [i < totalContracts],
    [getContract] returns the seven stored fields of such an id, and for an id
    at or above the counter [getContract], [getEncryptedContent],
    [clientApprove] and [lawyerConfirm] all revert with the existence
    message.  The two reads return the state they were given. *)
Theorem X1_existence_by_counter (s : State) (msg : Msg) (i : uint256) :
  reachable s →
  contractExists i s = Ok (bool_decide (i < totalContracts s), s) ∧
  (i < totalContracts s →
     getContract i s = Ok (fields_of (contract_at s i), s) ∧
     id (contract_at s i) = i) ∧
  (totalContracts s ≤ i →
     getContract i s = Revert "Contract does not exist" ∧
     getEncryptedContent msg i s = Revert "Contract does not exist" ∧
     clientApprove msg i s = Revert "Contract does not exist" ∧
     lawyerConfirm msg i s = Revert "Contract does not exist").
Proof.
  intros Hr. pose proof (reachable_wf _ Hr) as Hwf. split; [|split].
  - unfold contractExists, gets. f_equal. f_equal.
    case_bool_decide as Hlt.
    + by apply exists_below.
    + apply not_exists_above; [done|lia].
  - intros Hlt. pose proof (proj2 (exists_below s i Hwf) Hlt) as Hex.
    rewrite getContract_unfold, Hex. split; [done|].
    apply contract_at_exists in Hex. by destruct (wf_exists _ Hwf _ _ Hex).
  - intros Hle. pose proof (not_exists_above s i Hwf Hle) as Hex.
    rewrite getContract_unfold, getEncryptedContent_unfold, clientApprove_unfold,
      lawyerConfirm_unfold, Hex. done.
Qed.

(** X2. Reading back what was created.  After a successful
    [createContract], [getContract] of the returned id gives the title,
    the caller as lawyer, the client, [PendingClientApproval], the block
    timestamp and two zero approval times; [contractExists] is true;
    [getEncryptedContent] refuses every caller; and every other id reads as
    before. *)
Theorem X2_create_then_read (s s' : State) (msg reader : Msg) (t : string)
    (cl : address) (e : externalEuint32) (p : bytes) (i : uint256) :
  createContract msg t cl e p s = Ok (i, s') →
  getContract i s' =
    Ok ((t, sender msg, cl, PendingClientApproval, timestamp msg, 0, 0), s') ∧
  contractExists i s' = Ok (true, s') ∧
  getEncryptedContent reader i s' =
    Revert "Contract must be completed to access content" ∧
  (∀ j, j ≠ i → contract_at s' j = contract_at s j).
Proof.
  intros Hc. rewrite createContract_unfold in Hc.
  destruct (cl =? 0); [discriminate|].
  destruct (cl =? sender msg); [discriminate|].
  destruct (0 <? String.length t)%nat; [|discriminate].
  destruct (totalContracts s <? MAX_UINT256); [|discriminate].
  destruct (fromExternal _ _ _) as [h|]; [|discriminate].
  injection Hc as <- <-.
  rewrite getContract_unfold, getEncryptedContent_unfold.
  unfold contractExists, gets. rewrite contract_at_created. simpl.
  repeat split; try done.
  intros j Hj. unfold contract_at, created; simpl. by rewrite lookup_insert_ne.
Qed.

(** ** What a transaction can and cannot change *)

(** One transaction, seen from an existing record [i]: either the record
    is untouched, or the transaction is the approval (resp. confirmation) of
    [i] by its client (resp. lawyer) and writes the two fields. *)
Lemma step_record msg c s i :
  wf_state s → exists_ (contract_at s i) = true →
  contract_at (step msg c s) i = contract_at s i ∨
  (c = ClientApprove i ∧ sender msg = client (contract_at s i) ∧
   status (contract_at s i) = PendingClientApproval ∧
   contract_at (step msg c s) i =
     with_clientApprovedAt (timestamp msg)
       (with_status PendingLawyerFinalConfirmation (contract_at s i))) ∨
  (c = LawyerConfirm i ∧ sender msg = lawyer (contract_at s i) ∧
   status (contract_at s i) = PendingLawyerFinalConfirmation ∧
   contract_at (step msg c s) i =
     with_lawyerConfirmedAt (timestamp msg)
       (with_status Completed (contract_at s i))).
Proof.
  intros Hwf Hex.
  destruct (step_cases msg c s) as [[_ ->]|[_ Hc]]; [by left|].
  destruct c as [t cl e p|j|j].
  - destruct Hc as (_ & _ & _ & h & _ & ->). left.
    by apply contract_at_created_old.
  - destruct Hc as (_ & Hcl & Hst & ->). unfold approved.
    rewrite contract_at_insert_decide. case_decide; simplify_eq; [|by left].
    right; left. done.
  - destruct Hc as (_ & Hlw & Hst & ->). unfold confirmed.
    rewrite contract_at_insert_decide. case_decide; simplify_eq; [|by left].
    right; right. done.
Qed.

Lemma step_exists msg c s i :
  wf_state s → exists_ (contract_at s i) = true →
  exists_ (contract_at (step msg c s) i) = true.
Proof.
  intros Hwf Hex.
  destruct (step_record msg c s i Hwf Hex) as [->|[(_ & _ & _ & ->)|(_ & _ & _ & ->)]];
    done.
Qed.

Lemma step_identity msg c s i :
  wf_state s → exists_ (contract_at s i) = true →
  same_identity (contract_at s i) (contract_at (step msg c s) i).
Proof.
  intros Hwf Hex.
  destruct (step_record msg c s i Hwf Hex) as [->|[(_ & _ & _ & ->)|(_ & _ & _ & ->)]];
    by repeat split.
Qed.

(** X3. The identity of a record is immutable.  Along every sequence of
    transactions from a reachable state an existing record keeps its [id],
    [title], [encryptedContent], [lawyer], [client] and [createdAt], and it
    is never deleted. *)
Theorem X3_identity_immutable (s : State) (i : uint256) (tr : list (Msg * Call)) :
  reachable s → exists_ (contract_at s i) = true →
  same_identity (contract_at s i) (contract_at (run tr s) i) ∧
  exists_ (contract_at (run tr s) i) = true.
Proof.
  intros Hr Hex. pose proof (reachable_wf _ Hr) as Hwf. clear Hr.
  revert s Hwf Hex. induction tr as [|[msg c] tr IH]; intros s Hwf Hex; simpl.
  - split; [by repeat split|done].
  - pose proof (step_identity msg c s i Hwf Hex) as Hid.
    pose proof (step_exists msg c s i Hwf Hex) as Hex'.
    destruct (IH _ (wf_step msg c s Hwf) Hex') as [Hid' Hex''].
    split; [|done].
    destruct Hid as (? & ? & ? & ? & ? & ? & ?).
    destruct Hid' as (? & ? & ? & ? & ? & ? & ?).
    repeat split; congruence.
Qed.

(** X4. Shape of every stored record.  In every reachable state a record
    that exists carries its own key in [id], has a non-empty title, a client
    that is not the zero address, and a lawyer different from its client. *)
Theorem X4_record_shape (s : State) (i : uint256) :
  reachable s → exists_ (contract_at s i) = true →
  id (contract_at s i) = i ∧
  title (contract_at s i) ≠ "" ∧
  client (contract_at s i) ≠ 0 ∧
  lawyer (contract_at s i) ≠ client (contract_at s i).
Proof.
  intros Hr Hex. pose proof (reachable_wf _ Hr) as Hwf.
  apply contract_at_exists in Hex.
  destruct (wf_exists _ Hwf _ _ Hex) as [_ Hid].
  destruct (wf_parties _ Hwf _ _ Hex) as (Hne & Hz & Ht).
  repeat split; try done; congruence.
Qed.

(** X6. [Completed] is final.  Once a record of a reachable state is
    [Completed], every later [clientApprove] and [lawyerConfirm] on it fails,
    whoever calls, and no sequence of transactions changes any of its
    fields. *)
Theorem X6_completed_is_final (s : State) (i : uint256) :
  reachable s → exists_ (contract_at s i) = true →
  status (contract_at s i) = Completed →
  (∀ tr, contract_at (run tr s) i = contract_at s i) ∧
  (∀ tr msg, succeeds (clientApprove msg i) (run tr s) = false ∧
             succeeds (lawyerConfirm msg i) (run tr s) = false).
Proof.
  intros Hr Hex Hst. pose proof (reachable_wf _ Hr) as Hwf. clear Hr.
  assert (Hrun : ∀ tr, contract_at (run tr s) i = contract_at s i).
  { intros tr. revert s Hwf Hex Hst.
    induction tr as [|[msg c] tr IH]; intros s Hwf Hex Hst; simpl; [done|].
    assert (Hsame : contract_at (step msg c s) i = contract_at s i).
    { destruct (step_record msg c s i Hwf Hex) as [?|[(_ & _ & ? & _)|(_ & _ & ? & _)]];
        [done|congruence..]. }
    rewrite IH; [done|by apply wf_step|by rewrite Hsame..]. }
  split; [done|]. intros tr msg. unfold succeeds.
  rewrite clientApprove_unfold, lawyerConfirm_unfold, Hrun, Hex, Hst.
  split; by destruct (_ =? _).
Qed.

(** X7. Who moves the status.  If a transaction changes the status of an
    existing record, then it is [clientApprove] of that record sent by its
    client, taking it from [PendingClientApproval] to
    [PendingLawyerFinalConfirmation], or [lawyerConfirm] of that record sent
    by its lawyer, taking it from [PendingLawyerFinalConfirmation] to
    [Completed]. *)
Theorem X7_status_change_attribution (s : State) (msg : Msg) (c : Call)
    (i : uint256) :
  reachable s → exists_ (contract_at s i) = true →
  status (contract_at (step msg c s) i) ≠ status (contract_at s i) →
  (c = ClientApprove i ∧ sender msg = client (contract_at s i) ∧
   status (contract_at s i) = PendingClientApproval ∧
   status (contract_at (step msg c s) i) = PendingLawyerFinalConfirmation) ∨
  (c = LawyerConfirm i ∧ sender msg = lawyer (contract_at s i) ∧
   status (contract_at s i) = PendingLawyerFinalConfirmation ∧
   status (contract_at (step msg c s) i) = Completed).
Proof.
  intros Hr Hex Hch. pose proof (reachable_wf _ Hr) as Hwf.
  destruct (step_record msg c s i Hwf Hex)
    as [Hsame|[(-> & Hs & Hst & Hc)|(-> & Hs & Hst & Hc)]].
  - by rewrite Hsame in Hch.
  - left. rewrite Hc. done.
  - right. rewrite Hc. done.
Qed.

(** ** Timestamps, events and FHE calls as a journal of the state *)

Definition created_ids (evs : list Event) : list uint256 :=
  omap (fun e => match e with
                 | ContractCreated i _ _ _ _ => Some i
                 | _ => None
                 end) evs.

Definition allowThis_handles (cs : list FheCall) : list euint32 :=
  omap (fun c => match c with
                 | AllowThis h => Some h
                 | Allow _ _ => None
                 end) cs.

Record wf_journal (s : State) : Prop := {
  wj_stamps : ∀ i c, contracts s !! i = Some c →
    (status c = PendingClientApproval →
       clientApprovedAt c = 0 ∧ lawyerConfirmedAt c = 0) ∧
    (status c = PendingLawyerFinalConfirmation → lawyerConfirmedAt c = 0);
  wj_created : created_ids (events s) = ids_below (totalContracts s);
  wj_created_data : ∀ i l cl t ts, ContractCreated i l cl t ts ∈ events s →
    ∃ c, contracts s !! i = Some c ∧ lawyer c = l ∧ client c = cl ∧
         title c = t ∧ createdAt c = ts;
  wj_approved : ∀ i cl ts, ClientApproved i cl ts ∈ events s ↔
    ∃ c, contracts s !! i = Some c ∧ status c ≠ PendingClientApproval ∧
         client c = cl ∧ clientApprovedAt c = ts;
  wj_confirmed : ∀ i l ts, LawyerConfirmed i l ts ∈ events s ↔
    ∃ c, contracts s !! i = Some c ∧ status c = Completed ∧
         lawyer c = l ∧ lawyerConfirmedAt c = ts;
  wj_allowThis : allowThis_handles (fheCalls s) =
    (fun i => encryptedContent (contract_at s i)) <$> ids_below (totalContracts s)
}.

Lemma wj_init : wf_journal initState.
Proof.
  split; simpl; try done.
  - intros i l cl t ts Hin. by apply elem_of_nil in Hin.
  - intros i cl ts. split; [intros Hin; by apply elem_of_nil in Hin|].
    intros (c & Hc & _). by rewrite lookup_empty in Hc.
  - intros i l ts. split; [intros Hin; by apply elem_of_nil in Hin|].
    intros (c & Hc & _). by rewrite lookup_empty in Hc.
Qed.

Lemma created_ids_app evs evs' :
  created_ids (evs ++ evs') = created_ids evs ++ created_ids evs'.
Proof. apply omap_app. Qed.

Lemma allowThis_handles_app cs cs' :
  allowThis_handles (cs ++ cs') = allowThis_handles cs ++ allowThis_handles cs'.
Proof. apply omap_app. Qed.

Lemma fmap_ids_ext (f g : N → N) n :
  (∀ i, i < n → f i = g i) → f <$> ids_below n = g <$> ids_below n.
Proof.
  intros Hfg. apply list_fmap_ext. intros k i Hi. apply Hfg.
  apply elem_of_ids_below. by eapply list_elem_of_lookup_2.
Qed.

Lemma wj_created_step msg t cl h s :
  wf_state s → wf_journal s → wf_journal (created msg t cl h s).
Proof.
  intros Hwf Hwj.
  assert (Hnew : contracts s !! totalContracts s = None) by (by apply wf_fresh).
  assert (Hother : ∀ i c, contracts s !! i = Some c →
            <[totalContracts s :=
                mkContract (totalContracts s) t h (sender msg) cl
                  PendingClientApproval (timestamp msg) 0 0 true]> (contracts s) !! i
            = Some c).
  { intros i c Hi. rewrite lookup_insert_ne; [done|]. intros <-. congruence. }
  split; simpl.
  - intros i c Hi. rewrite lookup_insert in Hi. case_decide; simplify_eq; simpl.
    + by split.
    + by apply (wj_stamps _ Hwj) in Hi.
  - rewrite created_ids_app, ids_below_succ. simpl. by rewrite (wj_created _ Hwj).
  - intros i l cl' t' ts Hin. apply elem_of_app in Hin as [Hin|Hin].
    + destruct (wj_created_data _ Hwj _ _ _ _ _ Hin) as (c & Hc & Hr).
      exists c. split; [by apply Hother|done].
    + apply list_elem_of_singleton in Hin. injection Hin as -> -> -> -> ->.
      eexists. rewrite lookup_insert_eq. split; [done|]. done.
  - intros i cl' ts. rewrite elem_of_app, list_elem_of_singleton.
    rewrite (wj_approved _ Hwj). split.
    + intros [(c & Hc & Hr)|?]; [|done]. exists c. split; [by apply Hother|done].
    + intros (c & Hc & Hst & Hr). left. rewrite lookup_insert in Hc.
      case_decide; simplify_eq; first [done | by exists c].
  - intros i l ts. rewrite elem_of_app, list_elem_of_singleton.
    rewrite (wj_confirmed _ Hwj). split.
    + intros [(c & Hc & Hr)|?]; [|done]. exists c. split; [by apply Hother|done].
    + intros (c & Hc & Hst & Hr). left. rewrite lookup_insert in Hc.
      case_decide; simplify_eq; first [done | by exists c].
  - rewrite allowThis_handles_app, ids_below_succ, fmap_app. simpl.
    rewrite (wj_allowThis _ Hwj). f_equal.
    + apply fmap_ids_ext. intros i Hi. unfold contract_at; simpl.
      rewrite lookup_insert_ne by lia. done.
    + unfold contract_at; simpl. by rewrite lookup_insert_eq.
Qed.

(** A write that keeps the identity fields of record [i], given what it
    does to the status and the two approval times. *)
Lemma wj_update_step i f ev s :
  wf_state s → wf_journal s → keeps_identity f →
  (∀ c, createdAt (f c) = createdAt c) →
  exists_ (contract_at s i) = true →
  (∀ j c, <[i := f (contract_at s i)]> (contracts s) !! j = Some c →
     (status c = PendingClientApproval →
        clientApprovedAt c = 0 ∧ lawyerConfirmedAt c = 0) ∧
     (status c = PendingLawyerFinalConfirmation → lawyerConfirmedAt c = 0)) →
  (∀ j cl ts, ClientApproved j cl ts ∈ events s ++ [ev] ↔
     ∃ c, <[i := f (contract_at s i)]> (contracts s) !! j = Some c ∧
          status c ≠ PendingClientApproval ∧ client c = cl ∧
          clientApprovedAt c = ts) →
  (∀ j l ts, LawyerConfirmed j l ts ∈ events s ++ [ev] ↔
     ∃ c, <[i := f (contract_at s i)]> (contracts s) !! j = Some c ∧
          status c = Completed ∧ lawyer c = l ∧ lawyerConfirmedAt c = ts) →
  created_ids [ev] = [] →
  ∀ fc, allowThis_handles fc = allowThis_handles (fheCalls s) →
  wf_journal (mkState (<[i := f (contract_at s i)]> (contracts s))
                      (clientContracts s) (lawyerContracts s) (totalContracts s)
                      fc (events s ++ [ev])).
Proof.
  intros Hwf Hwj Hf Hcr Hex Hst Hap Hco Hev fc Hfc.
  pose proof (contract_at_exists _ _ Hex) as Hi.
  destruct (Hf (contract_at s i)) as (Hid & He & Hcl & Hlw & Hti & Hen).
  split; simpl; try done.
  - rewrite created_ids_app, Hev, app_nil_r. apply (wj_created _ Hwj).
  - intros j l cl t ts Hin. apply elem_of_app in Hin as [Hin|Hin].
    + destruct (wj_created_data _ Hwj _ _ _ _ _ Hin) as (c & Hc & Hl & Hc' & Ht & Hts).
      rewrite lookup_insert. case_decide; simplify_eq.
      * eexists. split; [done|]. by rewrite Hlw, Hcl, Hti, Hcr.
      * by exists c.
    + apply list_elem_of_singleton in Hin. subst ev. discriminate.
  - rewrite Hfc, (wj_allowThis _ Hwj). apply fmap_ids_ext. intros j Hj.
    rewrite contract_at_update by done. case_decide; simplify_eq; [|done].
    by rewrite Hen.
Qed.

Lemma wj_approved_step msg i s :
  wf_state s → wf_journal s →
  exists_ (contract_at s i) = true → client (contract_at s i) = sender msg →
  status (contract_at s i) = PendingClientApproval →
  wf_journal (approved msg i s).
Proof.
  intros Hwf Hwj Hex Hcl Hst. unfold approved.
  pose proof (contract_at_exists _ _ Hex) as Hi.
  apply (wj_update_step i (fun c => with_clientApprovedAt (timestamp msg)
                             (with_status PendingLawyerFinalConfirmation c)));
    [done|done|apply keeps_identity_approve|done|done|..|done|done].
  - intros j c Hj. rewrite lookup_insert in Hj. case_decide; simplify_eq; simpl.
    + split; [done|]. intros _.
      by destruct (proj1 (wj_stamps _ Hwj _ _ Hi) Hst).
    + by apply (wj_stamps _ Hwj) in Hj.
  - intros j cl ts. rewrite elem_of_app, list_elem_of_singleton, (wj_approved _ Hwj).
    split.
    + intros [(c & Hc & Hs & Hr)|Heq].
      * exists c. split; [|done]. rewrite lookup_insert_ne; [done|].
        intros <-. apply contract_at_lookup in Hc. congruence.
      * injection Heq as -> -> ->. eexists. rewrite lookup_insert_eq.
        split; [done|]. simpl. done.
    + intros (c & Hc & Hs & Hr). rewrite lookup_insert in Hc.
      case_decide; simplify_eq; simpl in *.
      * right. destruct Hr as [<- <-]. by rewrite Hcl.
      * left. by exists c.
  - intros j l ts. rewrite elem_of_app, list_elem_of_singleton, (wj_confirmed _ Hwj).
    split.
    + intros [(c & Hc & Hs & Hr)|?]; [|done].
      exists c. split; [|done]. rewrite lookup_insert_ne; [done|].
      intros <-. apply contract_at_lookup in Hc. congruence.
    + intros (c & Hc & Hs & Hr). rewrite lookup_insert in Hc.
      case_decide; simplify_eq; simpl in *; first [done | left; by exists c].
Qed.

Lemma wj_confirmed_step msg i s :
  wf_state s → wf_journal s →
  exists_ (contract_at s i) = true → lawyer (contract_at s i) = sender msg →
  status (contract_at s i) = PendingLawyerFinalConfirmation →
  wf_journal (confirmed msg i s).
Proof.
  intros Hwf Hwj Hex Hlw Hst. unfold confirmed.
  pose proof (contract_at_exists _ _ Hex) as Hi.
  apply (wj_update_step i (fun c => with_lawyerConfirmedAt (timestamp msg)
                             (with_status Completed c)));
    [done|done|apply keeps_identity_confirm|done|done|..|done|
     rewrite allowThis_handles_app; apply app_nil_r].
  - intros j c Hj. rewrite lookup_insert in Hj. case_decide; simplify_eq; simpl.
    + by split.
    + by apply (wj_stamps _ Hwj) in Hj.
  - intros j cl ts. rewrite elem_of_app, list_elem_of_singleton, (wj_approved _ Hwj).
    split.
    + intros [(c & Hc & Hs & Hr)|?]; [|done].
      rewrite lookup_insert. case_decide; simplify_eq.
      * eexists. split; [done|]. simpl. done.
      * by exists c.
    + intros (c & Hc & Hs & Hr). left. rewrite lookup_insert in Hc.
      case_decide; simplify_eq; simpl in *.
      * exists (contract_at s j). split; [done|]. split; [congruence|done].
      * by exists c.
  - intros j l ts. rewrite elem_of_app, list_elem_of_singleton, (wj_confirmed _ Hwj).
    split.
    + intros [(c & Hc & Hs & Hr)|Heq].
      * exists c. split; [|done]. rewrite lookup_insert_ne; [done|].
        intros <-. apply contract_at_lookup in Hc. congruence.
      * injection Heq as -> -> ->. eexists. rewrite lookup_insert_eq.
        split; [done|]. simpl. done.
    + intros (c & Hc & Hs & Hr). rewrite lookup_insert in Hc.
      case_decide; simplify_eq; simpl in *.
      * right. destruct Hr as [<- <-]. by rewrite Hlw.
      * left. by exists c.
Qed.

Lemma wj_step msg c s : wf_state s → wf_journal s → wf_journal (step msg c s).
Proof.
  intros Hwf Hwj.
  destruct (step_cases msg c s) as [[_ ->]|[_ Hc]]; [done|].
  destruct c as [t cl e p|i|i].
  - destruct Hc as (_ & _ & _ & h & _ & ->). by apply wj_created_step.
  - destruct Hc as (? & ? & ? & ->). by apply wj_approved_step.
  - destruct Hc as (? & ? & ? & ->). by apply wj_confirmed_step.
Qed.

Lemma reachable_wj s : reachable s → wf_journal s.
Proof.
  induction 1 as [|s msg c Hr IH]; [apply wj_init|].
  apply wj_step; [by apply reachable_wf|done].
Qed.

(** X5. Approval times follow the status.  In every reachable state a
    record in [PendingClientApproval] has both approval times zero, and a
    record in [PendingLawyerFinalConfirmation] has [lawyerConfirmedAt]
    zero: a time is written only by the transition it belongs to. *)
Theorem X5_unset_times (s : State) (i : uint256) :
  reachable s → exists_ (contract_at s i) = true →
  (status (contract_at s i) = PendingClientApproval →
     clientApprovedAt (contract_at s i) = 0 ∧
     lawyerConfirmedAt (contract_at s i) = 0) ∧
  (status (contract_at s i) = PendingLawyerFinalConfirmation →
     lawyerConfirmedAt (contract_at s i) = 0).
Proof.
  intros Hr Hex. apply contract_at_exists in Hex.
  apply (wj_stamps _ (reachable_wj _ Hr) _ _ Hex).
Qed.

(** X8. The event log is a journal of the state.  In every reachable
    state the [ContractCreated] events carry the ids 0, 1, ...,
    [totalContracts - 1] in this order, each with the lawyer, client, title
    and creation time of its record; a [ClientApproved] event is in the log
    exactly for the records past [PendingClientApproval], with the client
    and [clientApprovedAt] of the record; a [LawyerConfirmed] event exactly
    for the [Completed] records, with the lawyer and [lawyerConfirmedAt]. *)
Theorem X8_event_journal (s : State) :
  reachable s →
  created_ids (events s) = ids_below (totalContracts s) ∧
  (∀ i l cl t ts, ContractCreated i l cl t ts ∈ events s →
     exists_ (contract_at s i) = true ∧
     lawyer (contract_at s i) = l ∧ client (contract_at s i) = cl ∧
     title (contract_at s i) = t ∧ createdAt (contract_at s i) = ts) ∧
  (∀ i cl ts, ClientApproved i cl ts ∈ events s ↔
     exists_ (contract_at s i) = true ∧
     status (contract_at s i) ≠ PendingClientApproval ∧
     client (contract_at s i) = cl ∧ clientApprovedAt (contract_at s i) = ts) ∧
  (∀ i l ts, LawyerConfirmed i l ts ∈ events s ↔
     exists_ (contract_at s i) = true ∧
     status (contract_at s i) = Completed ∧
     lawyer (contract_at s i) = l ∧ lawyerConfirmedAt (contract_at s i) = ts).
Proof.
  intros Hr. pose proof (reachable_wf _ Hr) as Hwf.
  pose proof (reachable_wj _ Hr) as Hwj.
  assert (Hlook : ∀ i (P : Contract → Prop),
            (∃ c, contracts s !! i = Some c ∧ P c) ↔
            exists_ (contract_at s i) = true ∧ P (contract_at s i)).
  { intros i P. split.
    - intros (c & Hc & HP). rewrite (contract_at_lookup _ _ _ Hc).
      split; [|done]. by destruct (wf_exists _ Hwf _ _ Hc).
    - intros [Hex HP]. exists (contract_at s i).
      split; [by apply contract_at_exists|done]. }
  split; [apply (wj_created _ Hwj)|]. split; [|split].
  - intros i l cl t ts Hin.
    apply (Hlook i (fun c => lawyer c = l ∧ client c = cl ∧ title c = t ∧
                             createdAt c = ts)).
    by apply (wj_created_data _ Hwj).
  - intros i cl ts. rewrite (wj_approved _ Hwj).
    apply (Hlook i (fun c => status c ≠ PendingClientApproval ∧ client c = cl ∧
                             clientApprovedAt c = ts)).
  - intros i l ts. rewrite (wj_confirmed _ Hwj).
    apply (Hlook i (fun c => status c = Completed ∧ lawyer c = l ∧
                             lawyerConfirmedAt c = ts)).
Qed.

(** X9. The contract is allowed on every stored ciphertext.  In every
    reachable state the handles passed to [FHE.allowThis] are, in order, the
    [encryptedContent] of the records 0, 1, ..., [totalContracts - 1]: one
    call per record, for its handle, and none besides. *)
Theorem X9_allowThis_per_record (s : State) :
  reachable s →
  allowThis_handles (fheCalls s) =
    (fun i => encryptedContent (contract_at s i)) <$> ids_below (totalContracts s) ∧
  (∀ i, exists_ (contract_at s i) = true →
        AllowThis (encryptedContent (contract_at s i)) ∈ fheCalls s).
Proof.
  intros Hr. pose proof (reachable_wf _ Hr) as Hwf.
  pose proof (wj_allowThis _ (reachable_wj _ Hr)) as Hall.
  split; [done|]. intros i Hex.
  assert (Hin : encryptedContent (contract_at s i) ∈ allowThis_handles (fheCalls s)).
  { rewrite Hall. apply list_elem_of_fmap. exists i. split; [done|].
    apply elem_of_ids_below. by apply exists_below. }
  unfold allowThis_handles in Hin. apply list_elem_of_omap in Hin as (c & Hc & Hh).
  destruct c as [h|h a]; [|discriminate]. by injection Hh as ->.
Qed.

(** ** Order of the guards, and the whole life of a record *)

(** X10. Which failure a call reports.  [createContract] checks the zero
    client first, then client = caller, then the empty title, and only then
    increments the counter (a panic on overflow) and verifies the input
    proof.  [clientApprove] and [lawyerConfirm] check the caller before the
    status: a wrong caller gets the caller message whatever the status, and
    the right caller in a wrong status gets the status message. *)
Theorem X10_guard_order (s : State) (msg : Msg) :
  (∀ t e p,
     createContract msg t 0 e p s = Revert "Client address cannot be zero") ∧
  (∀ t e p, sender msg ≠ 0 →
     createContract msg t (sender msg) e p s =
       Revert "Lawyer and client cannot be the same") ∧
  (∀ cl e p, cl ≠ 0 → cl ≠ sender msg →
     createContract msg "" cl e p s = Revert "Title cannot be empty") ∧
  (∀ t cl e p, cl ≠ 0 → cl ≠ sender msg → t ≠ "" →
     totalContracts s = MAX_UINT256 →
     createContract msg t cl e p s = Panic 17) ∧
  (∀ t cl e p, cl ≠ 0 → cl ≠ sender msg → t ≠ "" →
     totalContracts s < MAX_UINT256 → fromExternal (sender msg) e p = None →
     ∃ reason, createContract msg t cl e p s = Revert reason) ∧
  (∀ i, exists_ (contract_at s i) = true →
     (client (contract_at s i) ≠ sender msg →
        clientApprove msg i s = Revert "Only client can approve") ∧
     (client (contract_at s i) = sender msg →
      status (contract_at s i) ≠ PendingClientApproval →
        clientApprove msg i s =
          Revert "Contract not in pending client approval status") ∧
     (lawyer (contract_at s i) ≠ sender msg →
        lawyerConfirm msg i s = Revert "Only lawyer can confirm") ∧
     (lawyer (contract_at s i) = sender msg →
      status (contract_at s i) ≠ PendingLawyerFinalConfirmation →
        lawyerConfirm msg i s =
          Revert "Contract not in pending lawyer confirmation status")).
Proof.
  split; [|split; [|split; [|split; [|split]]]].
  - intros t e p. by rewrite createContract_unfold.
  - intros t e p Hs. rewrite createContract_unfold.
    destruct (N.eqb_spec (sender msg) 0); [done|]. by rewrite N.eqb_refl.
  - intros cl e p Hz Hs. rewrite createContract_unfold.
    destruct (N.eqb_spec cl 0); [done|]. by destruct (N.eqb_spec cl (sender msg)).
  - intros t cl e p Hz Hs Ht Hmax. rewrite createContract_unfold.
    destruct (N.eqb_spec cl 0); [done|].
    destruct (N.eqb_spec cl (sender msg)); [done|].
    destruct t; [done|]. simpl. by rewrite Hmax, N.ltb_irrefl.
  - intros t cl e p Hz Hs Ht Hlt Hp. rewrite createContract_unfold.
    destruct (N.eqb_spec cl 0); [done|].
    destruct (N.eqb_spec cl (sender msg)); [done|].
    destruct t; [done|]. simpl.
    destruct (N.ltb_spec (totalContracts s) MAX_UINT256); [|lia].
    rewrite Hp. by eexists.
  - intros i Hex. rewrite clientApprove_unfold, lawyerConfirm_unfold, Hex.
    split; [|split; [|split]].
    + intros Hc. by destruct (N.eqb_spec (client (contract_at s i)) (sender msg)).
    + intros -> Hst. rewrite N.eqb_refl. by case_bool_decide.
    + intros Hl. by destruct (N.eqb_spec (lawyer (contract_at s i)) (sender msg)).
    + intros -> Hst. rewrite N.eqb_refl. by case_bool_decide.
Qed.

(** The three transactions of one record's life, started in [s]. *)
(** The getter the compiler generates for the public state variable
    [mapping(uint256 => Contract) public contracts]: it takes the key and
    returns the members of the struct in the order they are declared; it has
    no guard, and an absent key gives the zero record. *)
Definition public_contracts (contractId : uint256)
  : M (uint256 * string * euint32 * address * address * ContractStatus *
       uint256 * uint256 * uint256 * bool) :=
  contractData ← gets (fun s => contract_at s contractId);
  mret (id contractData, title contractData, encryptedContent contractData,
        lawyer contractData, client contractData, status contractData,
        createdAt contractData, clientApprovedAt contractData,
        lawyerConfirmedAt contractData, exists_ contractData).

Definition life (L C : address) (t : string) (e : externalEuint32) (p : bytes)
    (tCreate tApprove tConfirm : uint256) (s : State) : list (Msg * Call) :=
  [ (mkMsg L tCreate, CreateContract t C e p);
    (mkMsg C tApprove, ClientApprove (totalContracts s));
    (mkMsg L tConfirm, LawyerConfirm (totalContracts s)) ].

(** X11. Create, approve, confirm.  From any reachable state, if lawyer [L]
    creates a record for a client [C] (not zero, not [L]) with a non-empty
    title and an accepted input, [C] approves and [L] confirms, then:
    [getEncryptedContent] refuses every caller after the first and after the
    second step, while the getter of the public mapping [contracts] returns
    the record with its handle [h] to any caller from the first step on;
    after the third step the record is [Completed] with the three block
    timestamps, [getEncryptedContent] returns [h] to [L] and to [C], who each
    hold a grant on it, and refuses any other caller. *)
Theorem X11_life_of_a_record (s : State) (L C : address) (t : string)
    (e : externalEuint32) (p : bytes) (h : euint32)
    (tCreate tApprove tConfirm : uint256) :
  reachable s → C ≠ 0 → C ≠ L → t ≠ "" → totalContracts s < MAX_UINT256 →
  fromExternal L e p = Some h →
  let i := totalContracts s in
  let tr := life L C t e p tCreate tApprove tConfirm s in
  (∀ reader,
     getEncryptedContent reader i (run (take 1 tr) s) =
       Revert "Contract must be completed to access content" ∧
     getEncryptedContent reader i (run (take 2 tr) s) =
       Revert "Contract must be completed to access content") ∧
  public_contracts i (run (take 1 tr) s) =
    Ok ((i, t, h, L, C, PendingClientApproval, tCreate, 0, 0, true),
        run (take 1 tr) s) ∧
  public_contracts i (run (take 2 tr) s) =
    Ok ((i, t, h, L, C, PendingLawyerFinalConfirmation, tCreate, tApprove, 0,
         true),
        run (take 2 tr) s) ∧
  contract_at (run tr s) i =
    mkContract i t h L C Completed tCreate tApprove tConfirm true ∧
  (∀ reader, sender reader = L ∨ sender reader = C →
     getEncryptedContent reader i (run tr s) = Ok (h, run tr s)) ∧
  (∀ reader, sender reader ≠ L → sender reader ≠ C →
     getEncryptedContent reader i (run tr s) =
       Revert "Only lawyer or client can access content") ∧
  granted (run tr s) h L ∧ granted (run tr s) h C.
Proof.
  intros Hr Hz Hne Ht Hlt Hh i tr. subst tr. unfold life. cbn [take run].
  fold i.
  rewrite (step_create _ _ _ _ _ h s) by done.
  set (s1 := created (mkMsg L tCreate) t C h s).
  assert (H1 : contract_at s1 i =
               mkContract i t h L C PendingClientApproval tCreate 0 0 true).
  { apply contract_at_created. }
  rewrite step_approve by (by rewrite H1).
  set (s2 := approved (mkMsg C tApprove) i s1).
  assert (H2 : contract_at s2 i =
               mkContract i t h L C PendingLawyerFinalConfirmation
                          tCreate tApprove 0 true).
  { unfold s2, approved. by rewrite contract_at_insert, H1. }
  rewrite step_confirm by (by rewrite H2).
  set (s3 := confirmed (mkMsg L tConfirm) i s2).
  assert (H3 : contract_at s3 i =
               mkContract i t h L C Completed tCreate tApprove tConfirm true).
  { unfold s3, confirmed. by rewrite contract_at_insert, H2. }
  split; [|split; [|split; [|split; [done|split; [|split]]]]].
  - intros reader. rewrite !getEncryptedContent_unfold, H1, H2. done.
  - unfold public_contracts, mbind, M_bind, gets; simpl. by rewrite H1.
  - unfold public_contracts, mbind, M_bind, gets; simpl. by rewrite H2.
  - intros reader Hrd. rewrite getEncryptedContent_unfold, H3. simpl.
    destruct Hrd as [->| ->]; rewrite N.eqb_refl; [done|]. by rewrite orb_true_r.
  - intros reader HL HC. rewrite getEncryptedContent_unfold, H3. simpl.
    destruct (N.eqb_spec (sender reader) L); [done|].
    by destruct (N.eqb_spec (sender reader) C).
  - unfold granted, s3, confirmed. simpl. rewrite H2. simpl.
    split; set_solver.
Qed.

End Facts.

(** ** The properties on the worked scenario *)

Lemma X1_witness :
  contractExists 1 completed0 = Ok (true, completed0) ∧
  contractExists 2 completed0 = Ok (false, completed0) ∧
  getContract 2 completed0 = Revert "Contract does not exist".
Proof.
  destruct (X1_existence_by_counter (H := trustingFHE) completed0 lawyerMsg 1
              reachable_completed0) as (H1 & _).
  destruct (X1_existence_by_counter (H := trustingFHE) completed0 lawyerMsg 2
              reachable_completed0) as (H2 & _ & H3).
  split; [exact H1|]. split; [exact H2|]. apply H3. discriminate.
Defined.

Lemma X2_witness :
  getContract 0 (created lawyerMsg "NDA" 2 7 initState) =
    Ok (("NDA", 1, 2, PendingClientApproval, 100, 0, 0),
        created lawyerMsg "NDA" 2 7 initState).
Proof.
  apply (X2_create_then_read (H := trustingFHE) initState _ lawyerMsg lawyerMsg
           "NDA" 2 7 [] 0 eq_refl).
Defined.

Lemma X3_witness :
  same_identity
    (contract_at created2 0)
    (contract_at (run (H := trustingFHE)
                    [(clientMsg, ClientApprove 0); (lawyerMsg, LawyerConfirm 0)]
                    created2) 0).
Proof.
  exact (proj1 (X3_identity_immutable (H := trustingFHE) created2 0
                  [(clientMsg, ClientApprove 0); (lawyerMsg, LawyerConfirm 0)]
                  reachable_created2 eq_refl)).
Defined.

Lemma X4_witness :
  id (contract_at completed0 1) = 1 ∧
  title (contract_at completed0 1) ≠ "" ∧
  client (contract_at completed0 1) ≠ 0 ∧
  lawyer (contract_at completed0 1) ≠ client (contract_at completed0 1).
Proof.
  exact (X4_record_shape (H := trustingFHE) completed0 1 reachable_completed0
           eq_refl).
Defined.

Lemma X5_witness :
  clientApprovedAt (contract_at completed0 1) = 0 ∧
  lawyerConfirmedAt (contract_at completed0 1) = 0.
Proof.
  exact (proj1 (X5_unset_times (H := trustingFHE) completed0 1
                  reachable_completed0 eq_refl) eq_refl).
Defined.

Lemma X6_witness :
  contract_at (run (H := trustingFHE)
                 [(clientMsg, ClientApprove 0); (lawyerMsg, LawyerConfirm 0)]
                 completed0) 0 = contract_at completed0 0.
Proof.
  exact (proj1 (X6_completed_is_final (H := trustingFHE) completed0 0
                  reachable_completed0 eq_refl eq_refl)
               [(clientMsg, ClientApprove 0); (lawyerMsg, LawyerConfirm 0)]).
Defined.

Lemma X7_witness :
  sender clientMsg = client (contract_at created2 0) ∧
  status (contract_at (step (H := trustingFHE) clientMsg (ClientApprove 0)
                            created2) 0) = PendingLawyerFinalConfirmation.
Proof.
  assert (Hch : status (contract_at (step (H := trustingFHE) clientMsg
                                          (ClientApprove 0) created2) 0)
                ≠ status (contract_at created2 0)) by (vm_compute; discriminate).
  destruct (X7_status_change_attribution (H := trustingFHE) created2 clientMsg
              (ClientApprove 0) 0 reachable_created2 eq_refl Hch)
    as [(_ & Hs & _ & Hst)|(Hc & _)]; [|discriminate].
  split; [exact Hs|exact Hst].
Defined.

Lemma X8_witness :
  created_ids (events completed0) = [0; 1] ∧
  (LawyerConfirmed 0 1 100 ∈ events completed0 ↔
   exists_ (contract_at completed0 0) = true ∧
   status (contract_at completed0 0) = Completed ∧
   lawyer (contract_at completed0 0) = 1 ∧
   lawyerConfirmedAt (contract_at completed0 0) = 100).
Proof.
  destruct (X8_event_journal (H := trustingFHE) completed0 reachable_completed0)
    as (Hc & _ & _ & Hl).
  split; [exact Hc|apply Hl].
Defined.

Lemma X9_witness :
  allowThis_handles (fheCalls completed0) = [7; 7] ∧
  AllowThis 7 ∈ fheCalls completed0.
Proof.
  destruct (X9_allowThis_per_record (H := trustingFHE) completed0
              reachable_completed0) as [Hall Hin].
  split; [exact Hall|]. apply (Hin 1). reflexivity.
Defined.

Lemma X10_witness :
  clientApprove lawyerMsg 0 completed0 = Revert "Only client can approve" ∧
  clientApprove clientMsg 0 completed0 =
    Revert "Contract not in pending client approval status" ∧
  createContract (H := trustingFHE) lawyerMsg "" 0 7 [] completed0 =
    Revert "Client address cannot be zero".
Proof.
  destruct (X10_guard_order (H := trustingFHE) completed0 lawyerMsg)
    as (Hz & _ & _ & _ & _ & Hl).
  destruct (X10_guard_order (H := trustingFHE) completed0 clientMsg)
    as (_ & _ & _ & _ & _ & Hc).
  destruct (Hl 0 eq_refl) as (Hl1 & _). destruct (Hc 0 eq_refl) as (_ & Hc2 & _).
  split; [|split].
  - apply Hl1. discriminate.
  - apply Hc2; [reflexivity|discriminate].
  - apply Hz.
Defined.

Lemma X11_witness :
  contract_at (run (H := trustingFHE) (life 1 2 "NDA" 7 [] 100 200 300 completed0)
                   completed0) (totalContracts completed0) =
    mkContract (totalContracts completed0) "NDA" 7 1 2 Completed 100 200 300 true.
Proof.
  assert (Hlt : (totalContracts completed0 < MAX_UINT256)%N) by reflexivity.
  assert (Ht : "NDA" ≠ "") by discriminate.
  assert (H2 : (2 ≠ 0)%N) by discriminate.
  assert (H21 : (2 ≠ 1)%N) by discriminate.
  exact (proj1 (proj2 (proj2 (proj2
           (X11_life_of_a_record (H := trustingFHE) completed0 1 2 "NDA"
              7 [] 7 100 200 300 reachable_completed0 H2 H21 Ht Hlt
              eq_refl))))).
Defined.

End VaultFacts.

(* ===================================================================== *)
(** * Part V: further properties of [calculateTextHash]                   *)
(* ===================================================================== *)

Module HashFacts.

Import JS TextHash.
Local Open Scope Z_scope.

(** The value of [hash] when the loop of [calculateTextHash] ends. *)
Definition accumulator (text : js_string) : Z :=
  hash_loop text (length text) 0 0.

(** The polynomial [c0*31^(n-1) + c1*31^(n-2) + ... + c(n-1)], unwrapped,
    continued from [h]. *)
Definition poly_from (h : Z) (text : list Z) : Z :=
  fold_left (fun h c => h * 31 + c) text h.

Definition int32 (x : Z) : Prop := - 2 ^ 31 <= x < 2 ^ 31.

Lemma ToInt32_int32 x : int32 (ToInt32 x).
Proof. apply ToInt32_range. Qed.

Lemma ToInt32_of_int32 x : int32 x → ToInt32 x = x.
Proof.
  unfold int32, ToInt32. intros Hx.
  rewrite Z.mod_small by lia. lia.
Qed.

Lemma accumulator_rolling text : accumulator text = rolling_hash text.
Proof.
  unfold accumulator, rolling_hash.
  pose proof (hash_loop_fold [] text 0) as Hl. simpl in Hl. exact Hl.
Qed.

Lemma wrapped_fold_int32 h text :
  int32 h → int32 (fold_left (fun hash c => ToInt32 (hash * 31 + c)) text h).
Proof.
  revert h. induction text as [|c text IH]; intros h Hh; simpl; [done|].
  apply IH, ToInt32_int32.
Qed.

Lemma wrapped_fold_mod h h' text :
  h mod 2 ^ 32 = h' mod 2 ^ 32 →
  fold_left (fun hash c => ToInt32 (hash * 31 + c)) text h mod 2 ^ 32 =
  poly_from h' text mod 2 ^ 32.
Proof.
  unfold poly_from. revert h h'.
  induction text as [|c text IH]; intros h h' Hh; simpl; [done|].
  apply IH. rewrite ToInt32_mod.
  rewrite <- Zplus_mod_idemp_l, <- Zmult_mod_idemp_l, Hh.
  by rewrite Zmult_mod_idemp_l, Zplus_mod_idemp_l.
Qed.

Lemma poly_from_split h text :
  poly_from h text = h * 31 ^ Z.of_nat (length text) + poly_from 0 text.
Proof.
  unfold poly_from. revert h.
  induction text as [|c text IH]; intros h; [simpl; lia|].
  cbn [fold_left length]. rewrite IH, (IH (0 * 31 + c)).
  rewrite Nat2Z.inj_succ, Z.pow_succ_r by lia. lia.
Qed.

Lemma poly_from_app h a b :
  poly_from h (a ++ b) = poly_from (poly_from h a) b.
Proof. unfold poly_from. apply fold_left_app. Qed.

Lemma accumulator_poly text : accumulator text = ToInt32 (poly_from 0 text).
Proof.
  rewrite accumulator_rolling. unfold rolling_hash.
  rewrite <- (ToInt32_of_int32 (fold_left _ text 0)).
  - apply ToInt32_cong. by apply wrapped_fold_mod.
  - apply wrapped_fold_int32. unfold int32. lia.
Qed.

Lemma mod_linear x y k :
  (x * k + y) mod 2 ^ 32 = ((x mod 2 ^ 32) * k + y mod 2 ^ 32) mod 2 ^ 32.
Proof.
  symmetry. rewrite Zplus_mod_idemp_r.
  rewrite <- (Zplus_mod_idemp_l ((x mod 2 ^ 32) * k)).
  by rewrite Zmult_mod_idemp_l, Zplus_mod_idemp_l.
Qed.

Lemma accumulator_app a b :
  accumulator (a ++ b) =
  ToInt32 (accumulator a * 31 ^ Z.of_nat (length b) + accumulator b).
Proof.
  rewrite !accumulator_poly, poly_from_app, poly_from_split.
  apply ToInt32_cong.
  rewrite mod_linear, (mod_linear (ToInt32 _)). by rewrite !ToInt32_mod.
Qed.

Lemma calculateTextHash_accumulator text :
  calculateTextHash text = Z.abs (accumulator text) mod (2 ^ 31 - 1).
Proof.
  unfold calculateTextHash, accumulator. by rewrite Z.rem_mod_nonneg by lia.
Qed.

(** X12. Closed form and concatenation.  When the loop ends, [hash] is the
    polynomial [c0*31^(n-1) + ... + c(n-1)] of the code units reduced to an
    int32; hence the value for a concatenation [a ++ b] is obtained from the
    values for [a] and [b] as [(hash(a) * 31^|b| + hash(b))] reduced to an
    int32. *)
Theorem X12_hash_closed_form (a b : js_string) :
  accumulator a = ToInt32 (poly_from 0 a) ∧
  accumulator (a ++ b) =
    ToInt32 (accumulator a * 31 ^ Z.of_nat (length b) + accumulator b) ∧
  calculateTextHash (a ++ b) =
    Z.abs (ToInt32 (accumulator a * 31 ^ Z.of_nat (length b) + accumulator b))
      mod (2 ^ 31 - 1).
Proof.
  split; [apply accumulator_poly|]. split; [apply accumulator_app|].
  by rewrite calculateTextHash_accumulator, accumulator_app.
Qed.

(** X13. Collisions extend.  If two strings of the same length end the
    loop with the same [hash], then replacing one by the other anywhere
    inside a text leaves [calculateTextHash] unchanged: the fingerprint does
    not notice the substitution. *)
Theorem X13_collisions_extend (a b p q : js_string) :
  length a = length b → accumulator a = accumulator b →
  calculateTextHash (p ++ a ++ q) = calculateTextHash (p ++ b ++ q).
Proof.
  intros Hlen Hacc. rewrite !calculateTextHash_accumulator.
  rewrite !app_assoc, !(accumulator_app (_ ++ _) q), !(accumulator_app p).
  by rewrite Hlen, Hacc.
Qed.

(** "xAay" and "xBBy": "Aa" and "BB" end the loop with the same [hash]. *)
Lemma X13_witness :
  calculateTextHash ([120] ++ [65; 97] ++ [121]) =
  calculateTextHash ([120] ++ [66; 66] ++ [121]).
Proof.
  apply (X13_collisions_extend [65; 97] [66; 66] [120] [121]); reflexivity.
Defined.

(** X14. The arithmetic is exact.  With [hash] an int32 and a code unit
    [char], the number [(hash << 5) - hash + char] computed in the loop body
    lies strictly between -2^33 and 2^33, far inside the range where doubles
    are exact, and the loop returns an int32 from any int32. *)
Theorem X14_loop_is_exact (text : js_string) (n i : nat) (hash char : Z) :
  int32 hash → 0 <= char < 65536 →
  - 2 ^ 33 < shl hash 5 - hash + char < 2 ^ 33 ∧
  int32 (band (shl hash 5 - hash + char) (shl hash 5 - hash + char)) ∧
  int32 (hash_loop text n i hash).
Proof.
  intros Hh Hc. split; [|split].
  - rewrite shl_5. pose proof (ToInt32_range (hash * 32)). unfold int32 in Hh. lia.
  - rewrite hash_step. apply ToInt32_int32.
  - clear Hc char. revert i hash Hh.
    induction n as [|n IH]; intros i hash Hh; simpl; [done|].
    destruct (charCodeAt text i) as [c|].
    + apply IH. rewrite hash_step. apply ToInt32_int32.
    + apply IH. unfold int32. lia.
Qed.

Lemma X14_witness :
  - 2 ^ 33 < shl (-685785664) 5 - (-685785664) + 122 < 2 ^ 33 ∧
  int32 (band (shl (-685785664) 5 - (-685785664) + 122)
              (shl (-685785664) 5 - (-685785664) + 122)) ∧
  int32 (hash_loop [122] 1 0 (-685785664)).
Proof.
  apply (X14_loop_is_exact [122] 1 0 (-685785664) 122); unfold int32; lia.
Defined.

End HashFacts.

(* ===================================================================== *)
(** * Part VI: further properties of the payload cipher                   *)
(* ===================================================================== *)

Module PayloadFacts.

Import JS Bytes Base64 Encoding Payload.

(** ** The shape of a blob *)

Lemma length_padding_step n : padding (3 + n) = padding n.
Proof.
  unfold padding. replace (3 + n)%nat with (n + 1 * 3)%nat by lia.
  by rewrite Nat.Div0.mod_add.
Qed.

Lemma length_b64_encode (l : list Z) :
  length (b64_encode l) = (4 * ((length l + 2) / 3))%nat.
Proof.
  induction l as [| a | a b | a b c l IH] using list_ind3; [done..|].
  unfold b64_encode in *. change (length (a :: b :: c :: l)) with (3 + length l)%nat.
  rewrite length_padding_step. cbn [sextets map app length].
  rewrite IH. replace (3 + length l + 2)%nat with (length l + 2 + 1 * 3)%nat by lia.
  rewrite Nat.div_add by lia. lia.
Qed.

Lemma b64_encode_chars (l : list Z) :
  forallb is_byte_value l = true →
  Forall (fun c => is_b64_char c = true) (map b64_char (sextets l)).
Proof.
  intros Hl. destruct (b64_index_chars _ (sextets_ok l Hl)) as [Hc _].
  apply Forall_forall. intros c Hin.
  rewrite forallb_forall in Hc. apply Hc. by apply list_elem_of_In.
Qed.

Lemma padding_cases (n : nat) :
  padding n = [] ∨ padding n = [61%Z] ∨ padding n = [61%Z; 61%Z].
Proof. unfold padding. destruct (n mod 3)%nat as [|[|?]]; tauto. Qed.

Section Facts.
Context `{WebCrypto} `{E : Engine}.

(** X15. Every blob is storable text.  When the engine takes the 28 + n
    arguments of the spread call ([n] the length of the ciphertext with its
    tag), [encryptText] returns a blob of [4 * ceil((28 + n) / 3)]
    characters: characters of the base64 alphabet followed by no, one or two
    [=].  Otherwise it throws [RangeError]. *)
Theorem X15_blob_shape (text password : js_string) (rng : Rng) :
  (arguments_fit text password rng →
   ∃ body pad,
     encryptText text password rng = Returned (body ++ pad) ∧
     Forall (fun c => is_b64_char c = true) body ∧
     (pad = [] ∨ pad = [61%Z] ∨ pad = [61%Z; 61%Z]) ∧
     length (body ++ pad) =
       (4 * ((28 + length (ciphertext_of text password rng) + 2) / 3))%nat) ∧
  (¬ arguments_fit text password rng →
   encryptText text password rng = Thrown RangeError).
Proof.
  split; [|apply sealed_too_long].
  intros Hfit. rewrite (sealed_blob text password rng Hfit).
  eexists _, _. split; [reflexivity|]. split; [|split].
  - apply b64_encode_chars, forallb_byte_values.
  - apply padding_cases.
  - fold (b64_encode (map byte_to_Z
            (salt_of rng ++ iv_of rng ++ ciphertext_of text password rng))).
    by rewrite length_b64_encode, length_map, length_combined.
Qed.

(** ** Blobs that are not base64 *)

Lemma strip_padding_keeps (d : list Z) (c : Z) :
  c ≠ 61%Z → c ∈ d → c ∈ strip_padding d.
Proof.
  intros Hc Hin. unfold strip_padding.
  assert (Hrev : c ∈ rev d).
  { apply list_elem_of_In, in_rev. rewrite rev_involutive. by apply list_elem_of_In. }
  destruct (rev d) as [|x [|y r]] eqn:Er; [done|..].
  - destruct (Z.eqb_spec x 61); [|done]. apply list_elem_of_singleton in Hrev. lia.
  - destruct (Z.eqb_spec x 61); [|done].
    assert (Hyr : c ∈ y :: r).
    { apply elem_of_cons in Hrev as [?|?]; [lia|done]. }
    destruct (Z.eqb_spec y 61).
    + apply elem_of_cons in Hyr as [?|Hr]; [lia|].
      apply list_elem_of_In, in_rev. rewrite rev_involutive. by apply list_elem_of_In.
    + apply list_elem_of_In, in_rev. rewrite rev_involutive. by apply list_elem_of_In.
Qed.

Lemma atob_rejects (blob : js_string) (c : Z) :
  c ∈ blob → is_ascii_whitespace c = false → is_b64_char c = false → c ≠ 61%Z →
  atob blob = Thrown InvalidCharacterError.
Proof.
  intros Hin Hws Hb Hc. unfold atob.
  set (d := List.filter (fun c => negb (is_ascii_whitespace c)) blob).
  assert (Hd : c ∈ d).
  { apply list_elem_of_In, filter_In. split; [by apply list_elem_of_In|].
    by rewrite Hws. }
  set (d' := if (length d mod 4 =? 0)%nat then strip_padding d else d).
  assert (Hd' : c ∈ d').
  { unfold d'. destruct (length d mod 4 =? 0)%nat; [|done].
    by apply strip_padding_keeps. }
  destruct (length d' mod 4 =? 1)%nat; [done|].
  destruct (forallb is_b64_char d') eqn:Er; [|done].
  rewrite forallb_forall in Er. apply list_elem_of_In, Er in Hd'. congruence.
Qed.

(** X16. A blob that is not base64 is refused before any cryptography.  If
    the stored string contains a character that is neither ASCII whitespace,
    nor in the base64 alphabet, nor [=], [decryptText] throws
    [InvalidCharacterError], whatever the passphrase. *)
Theorem X16_rejects_non_base64 (blob password : js_string) (c : Z) :
  c ∈ blob → is_ascii_whitespace c = false → is_b64_char c = false → c ≠ 61%Z →
  decryptText blob password = Thrown InvalidCharacterError.
Proof.
  intros Hin Hws Hb Hc. unfold decryptText.
  by rewrite (atob_rejects blob c).
Qed.

(** ** What comes back for an arbitrary string *)

(** The text as it survives [TextEncoder] then [TextDecoder]: lone
    surrogates replaced by U+FFFD, one leading U+FEFF removed. *)
Definition normalise (text : js_string) : js_string :=
  flat_map utf16_units (strip_bom (scalar_values text)).

Lemma replacement_scalar : is_scalar REPLACEMENT = true.
Proof. reflexivity. Qed.

Lemma scalar_values_scalar (text : js_string) :
  forallb is_code_unit text = true →
  forallb is_scalar (scalar_values text) = true.
Proof.
  remember (length text) as n eqn:Hn. revert text Hn.
  induction n as [n IH] using lt_wf_ind. intros text Hn Hcu.
  destruct text as [|u rest]; [done|]. simpl in Hcu |- *.
  apply andb_prop in Hcu as [Hu Hrest].
  assert (IHrest : forallb is_scalar (scalar_values rest) = true).
  { apply (IH (length rest)); [simpl in Hn; lia|done..]. }
  destruct (is_high_surrogate u) eqn:Hh.
  - destruct rest as [|l rest']; [done|].
    destruct (is_low_surrogate l) eqn:Hl.
    + destruct (pair_scalar u l Hh Hl) as (Hsc & _). simpl. rewrite Hsc. simpl.
      simpl in Hrest. apply andb_prop in Hrest as [_ Hrest'].
      apply (IH (length rest')); [simpl in Hn; lia|done..].
    + cbn [forallb]. by rewrite replacement_scalar, IHrest.
  - destruct (is_low_surrogate u) eqn:Hl.
    + cbn [forallb]. by rewrite replacement_scalar, IHrest.
    + destruct (unit_scalar u Hh Hl Hu) as [Hsc _].
      cbn [forallb]. by rewrite Hsc, IHrest.
Qed.

Lemma decode_encode_normalise (text : js_string) :
  forallb is_code_unit text = true →
  TextDecoder_decode (TextEncoder_encode text) = normalise text.
Proof.
  intros Hcu. unfold TextDecoder_decode, TextEncoder_encode, normalise.
  destruct (utf8_decode_encode _ (scalar_values_scalar text Hcu)) as [Hbytes Hdec].
  by rewrite map_to_Z_ToUint8, Hdec by done.
Qed.

Lemma normalise_bom (rest : js_string) :
  well_formed rest = true → normalise (BOM :: rest) = rest.
Proof.
  intros Hwf. unfold normalise.
  assert (Hsv : scalar_values (BOM :: rest) = BOM :: scalar_values rest) by done.
  rewrite Hsv. simpl strip_bom.
  by destruct (scalar_values_well_formed rest Hwf) as [_ ->].
Qed.

(** X17. What [decryptText] returns for what [encryptText] sealed, for any
    string of code units.  When the engine takes the arguments of the spread
    call, [encryptText] returns a blob and [decryptText] of it returns the
    text with every lone surrogate replaced by U+FFFD and one leading U+FEFF
    removed; otherwise [encryptText] throws [RangeError].  In particular a
    text U+FEFF followed by well-formed [rest] comes back as [rest]. *)
Theorem X17_round_trip_normalises `{!WebCryptoCorrect H}
    (text password : js_string) (rng : Rng) :
  forallb is_code_unit text = true →
  (arguments_fit text password rng →
   ∃ blob, encryptText text password rng = Returned blob ∧
           decryptText blob password = Returned (normalise text)) ∧
  (¬ arguments_fit text password rng →
   encryptText text password rng = Thrown RangeError) ∧
  (∀ rest, text = BOM :: rest → well_formed rest = true → normalise text = rest).
Proof.
  intros Hcu. split; [|split].
  - intros Hfit.
    destruct (decrypt_sealed text password rng Hfit) as (blob & He & Hd).
    exists blob. split; [done|]. by rewrite Hd, decode_encode_normalise.
  - apply sealed_too_long.
  - intros rest -> Hwf. by apply normalise_bom.
Qed.

End Facts.

Local Open Scope Z_scope.

Lemma X16_witness :
  decryptText (H := modelCrypto) [65; 65; 42; 65] [107] = Thrown InvalidCharacterError.
Proof.
  apply (X16_rejects_non_base64 (H := modelCrypto) [65; 65; 42; 65] [107] 42);
    [|reflexivity|reflexivity|discriminate].
  apply list_elem_of_In. simpl. tauto.
Defined.

Lemma X15_witness :
  ∃ body pad,
    encryptText (H := modelCrypto) (E := engine65536) [104; 105] [107] countingRng =
      Returned (body ++ pad) ∧
    Forall (fun c => is_b64_char c = true) body ∧
    (pad = [] ∨ pad = [61] ∨ pad = [61; 61]) ∧
    length (body ++ pad) =
      (4 * ((28 + length (ciphertext_of (H := modelCrypto) [104; 105]%Z [107]%Z
                            countingRng) + 2) / 3))%nat.
Proof.
  exact (proj1 (X15_blob_shape (H := modelCrypto) (E := engine65536)
                  [104; 105] [107] countingRng) hi_fits).
Defined.

Lemma X17_witness :
  ∃ blob,
    encryptText (H := modelCrypto) (E := engine65536) [65279; 104; 55357] [107]
      countingRng = Returned blob ∧
    decryptText (H := modelCrypto) blob [107] =
      Returned (normalise [65279; 104; 55357]).
Proof.
  apply (X17_round_trip_normalises (H := modelCrypto) (E := engine65536)
           (WebCryptoCorrect0 := modelCrypto_correct)
           [65279; 104; 55357] [107] countingRng eq_refl).
  vm_compute. discriminate.
Defined.

Example normalise_sample : normalise [65279; 104; 55357] = [104; 65533].
Proof. reflexivity. Qed.

End PayloadFacts.

(* ===================================================================== *)
(** * Part VII: the contract list of the frontend                         *)
(* ===================================================================== *)

Module Frontend.

Import LawVault.
Local Open Scope N_scope.

(** A record as the list component holds it (its [Contract] interface).
    Addresses are compared after [toLowerCase()]; both sides are 20-byte
    addresses in hexadecimal, so this is equality of addresses. *)
Record ContractView := mkView {
  v_id : uint256;
  v_title : string;
  v_lawyer : address;
  v_client : address;
  v_status : N;
  v_createdAt : uint256;
  v_clientApprovedAt : uint256;
  v_lawyerConfirmedAt : uint256;
  v_decryptedContent : option (list Z)
}.

(** The [uint8] a status is returned as. *)
Definition status_number (st : ContractStatus) : N :=
  match st with
  | PendingClientApproval => 0
  | PendingLawyerFinalConfirmation => 1
  | Completed => 2
  end.

(** Why a read of the list component throws. *)
Inductive ReadError :=
| UrlRequiredError
| ContractFunctionExecutionError (reason : string + N).

(** [publicClient.readContract] of [getContract(id)], on the client the
    callback builds with
    [createPublicClient({chain: chainId === 31337 ? hardhat : undefined,
    transport: http()})].  [http()] is given no URL, so the client has the
    default RPC URL of its chain, the local node for [hardhat], and none
    without a chain: then viem throws [UrlRequiredError] and nothing is read.
    On chain 31337 the call runs [getContract] on the state [s] of the
    contract on that node, and throws when it reverts. *)
Definition readContract_getContract (chainId : N) (s : State) (id : uint256)
  : ReadError + (string * address * address * N * uint256 * uint256 * uint256) :=
  if chainId =? 31337 then
    match getContract id s with
    | Ok ((title, lawyer, client, status, createdAt, clientApprovedAt,
           lawyerConfirmedAt), _) =>
        inr (title, lawyer, client, status_number status, createdAt,
             clientApprovedAt, lawyerConfirmedAt)
    | Revert reason => inl (ContractFunctionExecutionError (inl reason))
    | Panic code => inl (ContractFunctionExecutionError (inr code))
    end
  else inl UrlRequiredError.

(** The body of the [contractIds.map] callback of [loadContracts]: whatever
    is thrown while the client is built and the record read is caught and
    gives [null]; a record is kept when the user is its lawyer or its
    client. *)
Definition load_one (address : address) (chainId : N) (s : State) (id : uint256)
  : option ContractView :=
  match readContract_getContract chainId s id with
  | inr (title, lawyer, client, status, createdAt, clientApprovedAt,
         lawyerConfirmedAt) =>
      let contract :=
        mkView id title lawyer client status createdAt
               clientApprovedAt lawyerConfirmedAt None in
      let isLawyer := v_lawyer contract =? address in
      let isClient := v_client contract =? address in
      if isLawyer || isClient then Some contract else None
  | inl _ => None
  end.

(** The comparator [(a, b) => Number(b.createdAt - a.createdAt)]. *)
Definition by_createdAt_desc (a b : ContractView) : Z :=
  (Z.of_N (v_createdAt b) - Z.of_N (v_createdAt a))%Z.

(** [Array.prototype.sort] with a comparator: the stable sort. *)
Fixpoint insert_sorted (cmp : ContractView → ContractView → Z) (x : ContractView)
    (l : list ContractView) : list ContractView :=
  match l with
  | [] => [x]
  | y :: l' =>
      if (cmp x y <=? 0)%Z then x :: y :: l' else y :: insert_sorted cmp x l'
  end.

Definition Array_sort (cmp : ContractView → ContractView → Z)
    (l : list ContractView) : list ContractView :=
  foldr (insert_sorted cmp) [] l.

(** [loadContracts]: the new value of the [contracts] state.  Without a
    connected account or a deployment nothing is loaded; [chainId] is the
    chain of the wallet, [totalContracts] the value last read from the
    chain, if any, and [s] the state of the deployed contract on the local
    node, which the [getContract] reads see on chain 31337. *)
Definition loadContracts (isConnected : bool) (address contractAddress : option address)
    (chainId : N) (totalContracts : option uint256) (s : State)
    (contracts : list ContractView)
  : list ContractView :=
  match isConnected, address, contractAddress with
  | true, Some address, Some _ =>
      let total := default 0 totalContracts in
      if total =? 0 then []
      else
        let contractIds := ids_below total in
        let loadedContracts := omap (load_one address chainId s) contractIds in
        Array_sort by_createdAt_desc loadedContracts
  | _, _, _ => contracts
  end.

Inductive action :=
| toast_error (message : string)
| writeContract (functionName : string) (contractId : uint256).

Definition same_address (a : address) (b : option address) : bool :=
  match b with
  | Some b => a =? b
  | None => false
  end.


Definition handleLawyerConfirm (contracts : list ContractView)
    (address : option address) (contractId : uint256) : action :=
  match List.find (fun c => v_id c =? contractId) contracts with
  | None => toast_error "Contract not found"
  | Some contract =>
      if negb (v_status contract =? 1) then
        toast_error
          ("Contract is not in pending confirmation status. Current status: "
           +:+ pretty (v_status contract))
      else if negb (same_address (v_lawyer contract) address) then
        toast_error "Only the lawyer can confirm this contract"
      else writeContract "lawyerConfirm" contractId
  end.

(** The id under which the create form files the pending handle and text
    once the transaction is confirmed, from the [totalContracts] it reads. *)
Definition filed_contractId (totalContracts : uint256) : uint256 :=
  if 0 <? totalContracts then totalContracts - 1 else 0.


(** ** What the list shows *)

Definition view_of (i : uint256) (c : Contract) : ContractView :=
  mkView i (title c) (lawyer c) (client c) (status_number (status c))
         (createdAt c) (clientApprovedAt c) (lawyerConfirmedAt c) None.

Definition party (a : address) (c : Contract) : bool :=
  (lawyer c =? a) || (client c =? a).

(** Newest first, and among records of one timestamp the lower id first. *)
Definition shown_before (x y : ContractView) : Prop :=
  v_createdAt y < v_createdAt x ∨
  (v_createdAt y = v_createdAt x ∧ v_id x < v_id y).

Lemma load_one_unfold a chainId s i :
  load_one a chainId s i =
  if (chainId =? 31337) && exists_ (contract_at s i) && party a (contract_at s i)
  then Some (view_of i (contract_at s i)) else None.
Proof.
  unfold load_one, readContract_getContract.
  destruct (chainId =? 31337); simpl; [|done].
  rewrite VaultFacts.getContract_unfold.
  destruct (exists_ (contract_at s i)); simpl; [|done].
  unfold party. by destruct (_ || _).
Qed.

Lemma insert_sorted_perm cmp x l : insert_sorted cmp x l ≡ₚ x :: l.
Proof.
  induction l as [|y l IH]; simpl; [done|].
  destruct (cmp x y <=? 0)%Z; [done|].
  rewrite IH. apply Permutation_swap.
Qed.

Lemma Array_sort_perm cmp l : Array_sort cmp l ≡ₚ l.
Proof.
  induction l as [|x l IH]; simpl; [done|].
  rewrite insert_sorted_perm. by rewrite IH.
Qed.

Lemma insert_sorted_shown x l :
  Forall (λ y, v_id x < v_id y) l →
  StronglySorted shown_before l →
  StronglySorted shown_before (insert_sorted by_createdAt_desc x l).
Proof.
  intros Hid Hl. induction Hl as [|y l Hl IH Hy]; simpl.
  - constructor; [constructor|constructor].
  - apply Forall_cons in Hid as [Hxy Hid].
    unfold by_createdAt_desc at 1.
    destruct (Z.leb_spec (Z.of_N (v_createdAt y) - Z.of_N (v_createdAt x)) 0)
      as [Hle|Hgt].
    + constructor; [by constructor|].
      assert (Hfirst : shown_before x y) by (unfold shown_before; lia).
      apply Forall_cons; split; [done|].
      rewrite Forall_forall in Hy, Hid. apply Forall_forall. intros z Hz.
      specialize (Hy z Hz). specialize (Hid z Hz).
      unfold shown_before in *. lia.
    + constructor; [by apply IH|].
      apply Forall_forall. intros z Hz.
      rewrite insert_sorted_perm in Hz. apply elem_of_cons in Hz as [->|Hz].
      * unfold shown_before. lia.
      * rewrite Forall_forall in Hy. by apply Hy.
Qed.

Lemma Array_sort_shown l :
  StronglySorted N.lt (v_id <$> l) →
  StronglySorted shown_before (Array_sort by_createdAt_desc l).
Proof.
  induction l as [|x l IH]; simpl; intros Hl; [constructor|].
  apply StronglySorted_inv in Hl as [Hl Hx].
  apply insert_sorted_shown; [|by apply IH].
  apply Forall_forall. intros y Hy. rewrite Array_sort_perm in Hy.
  rewrite Forall_forall in Hx. apply Hx. by apply list_elem_of_fmap_2.
Qed.

Lemma loaded_ids a chainId s (l : list uint256) :
  v_id <$> omap (load_one a chainId s) l =
  filter (λ i, (chainId =? 31337) && exists_ (contract_at s i)
               && party a (contract_at s i) = true) l.
Proof.
  induction l as [|i l IH]; simpl; [done|].
  rewrite filter_cons, load_one_unfold.
  destruct ((chainId =? 31337) && exists_ (contract_at s i)
            && party a (contract_at s i));
    case_decide; try done; simpl.
  f_equal. apply IH.
Qed.

Lemma elem_of_loaded a chainId s (l : list uint256) v :
  v ∈ omap (load_one a chainId s) l ↔
  ∃ i, i ∈ l ∧ chainId = 31337 ∧ exists_ (contract_at s i) = true ∧
       party a (contract_at s i) = true ∧ v = view_of i (contract_at s i).
Proof.
  rewrite list_elem_of_omap. split.
  - intros (i & Hi & Hv). exists i. rewrite load_one_unfold in Hv.
    destruct (N.eqb_spec chainId 31337); simpl in Hv; [|done].
    destruct (exists_ (contract_at s i)); simpl in Hv; [|done].
    destruct (party a (contract_at s i)); simplify_eq. done.
  - intros (i & Hi & -> & Hex & Hp & ->). exists i. split; [done|].
    by rewrite load_one_unfold, Hex, Hp.
Qed.

Lemma loaded_none a chainId s (l : list uint256) :
  chainId ≠ 31337 → omap (load_one a chainId s) l = [].
Proof.
  intros Hc. induction l as [|i l IH]; simpl; [done|].
  rewrite load_one_unfold.
  destruct (N.eqb_spec chainId 31337); [done|]. simpl. apply IH.
Qed.

Lemma loadContracts_loaded a ca chainId total s prev :
  total ≠ 0 →
  loadContracts true (Some a) (Some ca) chainId (Some total) s prev =
  Array_sort by_createdAt_desc (omap (load_one a chainId s) (ids_below total)).
Proof.
  intros Hne. unfold loadContracts; simpl.
  by destruct (N.eqb_spec total 0).
Qed.

Lemma filter_either {A} (P Q : A → Prop) `{∀ x, Decision (P x)}
    `{∀ x, Decision (Q x)} (l : list A) :
  (∀ x, x ∈ l → P x → Q x → False) →
  filter (λ x, P x ∨ Q x) l ≡ₚ filter P l ++ filter Q l.
Proof.
  induction l as [|x l IH]; intros Hd; [done|].
  rewrite !filter_cons.
  assert (Hl : ∀ y, y ∈ l → P y → Q y → False).
  { intros y Hy. apply Hd. by right. }
  specialize (IH Hl).
  destruct (decide (P x)) as [Hp|Hp], (decide (Q x)) as [Hq|Hq].
  - destruct (Hd x); [by left|done|done].
  - rewrite decide_True by (by left). simpl. by rewrite IH.
  - rewrite decide_True by (by right). rewrite IH.
    by rewrite <- Permutation_middle.
  - rewrite decide_False by tauto. done.
Qed.



Lemma party_spec a c : party a c = true ↔ lawyer c = a ∨ client c = a.
Proof. unfold party. by rewrite orb_true_iff, !N.eqb_eq. Qed.

Section Facts.
Context `{FHE}.

Lemma elem_of_shown s a ca chainId total prev v :
  wf_state s →
  v ∈ loadContracts true (Some a) (Some ca) chainId (Some total) s prev ↔
  ∃ i, chainId = 31337 ∧ i < total ∧ i < totalContracts s ∧
       (lawyer (contract_at s i) = a ∨ client (contract_at s i) = a) ∧
       v = view_of i (contract_at s i).
Proof.
  intros Hwf. destruct (decide (total = 0)) as [->|Hne].
  - unfold loadContracts; simpl. split; [by intros ?%elem_of_nil|].
    intros (i & _ & Hi & _). lia.
  - rewrite loadContracts_loaded by done.
    rewrite Array_sort_perm, elem_of_loaded. split.
    + intros (i & Hi & Hc & Hex & Hp & ->). exists i.
      apply elem_of_ids_below in Hi.
      apply (VaultFacts.exists_below _ _ Hwf) in Hex.
      by apply party_spec in Hp.
    + intros (i & Hc & Hi & Hlt & Hp & ->). exists i.
      split; [by apply elem_of_ids_below|]. split; [done|].
      split; [by apply (VaultFacts.exists_below _ _ Hwf)|].
      split; [by apply party_spec|done].
Qed.

Lemma shown_ids s a ca chainId total prev :
  v_id <$> loadContracts true (Some a) (Some ca) chainId (Some total) s prev ≡ₚ
  filter (λ i, (chainId =? 31337) && exists_ (contract_at s i)
               && party a (contract_at s i) = true)
         (ids_below total).
Proof.
  destruct (decide (total = 0)) as [->|Hne].
  - unfold loadContracts; simpl. done.
  - rewrite loadContracts_loaded by done.
    by rewrite Array_sort_perm, loaded_ids.
Qed.

Lemma shown_NoDup s a ca chainId total prev :
  NoDup (v_id <$> loadContracts true (Some a) (Some ca) chainId (Some total) s prev).
Proof. rewrite shown_ids. apply NoDup_filter, ids_below_NoDup. Qed.

Lemma shown_no_chain s a ca chainId total prev :
  chainId ≠ 31337 →
  loadContracts true (Some a) (Some ca) chainId (Some total) s prev = [].
Proof.
  intros Hc. destruct (decide (total = 0)) as [->|Hne]; [done|].
  rewrite loadContracts_loaded by done. by rewrite loaded_none.
Qed.

(** X18. For a connected account and whatever value of [totalContracts] the
    page last read: on chain 31337 the list that [loadContracts] builds holds
    exactly the records of the local node's state with an id below both that
    value and the contract's counter in which the account is the lawyer or
    the client; on any other chain the client has no URL, every read throws
    and the list is empty.  The list has each id once, the newest first and
    records of one timestamp in the order of their ids. *)
Lemma X18_list_contents s a ca chainId total prev :
  reachable s →
  let shown := loadContracts true (Some a) (Some ca) chainId (Some total) s prev in
  (chainId = 31337 →
   ∀ v, v ∈ shown ↔
        ∃ i, i < total ∧ i < totalContracts s ∧
             (lawyer (contract_at s i) = a ∨ client (contract_at s i) = a) ∧
             v = view_of i (contract_at s i)) ∧
  (chainId ≠ 31337 → shown = []) ∧
  StronglySorted shown_before shown ∧
  NoDup (v_id <$> shown).
Proof.
  intros Hr shown. pose proof (reachable_wf _ Hr) as Hwf.
  split; [|split; [|split]].
  - intros Hc v. subst shown. rewrite elem_of_shown by done.
    split; [intros (i & _ & Hi); by exists i|intros (i & Hi); by exists i].
  - apply shown_no_chain.
  - subst shown. destruct (decide (total = 0)) as [->|Hne].
    + unfold loadContracts; simpl. constructor.
    + rewrite loadContracts_loaded by done.
      apply Array_sort_shown. rewrite loaded_ids.
      apply StronglySorted_filter, ids_below_sorted.
  - apply shown_NoDup.
Qed.

(** X19. Loaded with the current counter on chain 31337, the ids in the list
    are those of the contract's own two indexes for the account,
    [getLawyerContracts] and [getClientContracts], taken together; no id is
    in both.  On any other chain the list is empty whatever the indexes
    hold. *)
Lemma X19_list_matches_indexes s a ca chainId prev :
  reachable s →
  let shown :=
    loadContracts true (Some a) (Some ca) chainId (Some (totalContracts s)) s
                  prev in
  ∃ asLawyer asClient,
    getLawyerContracts a s = Ok (asLawyer, s) ∧
    getClientContracts a s = Ok (asClient, s) ∧
    (chainId = 31337 → v_id <$> shown ≡ₚ asLawyer ++ asClient) ∧
    (chainId ≠ 31337 → shown = []) ∧
    ∀ i, i ∈ asLawyer → i ∉ asClient.
Proof.
  intros Hr shown. pose proof (reachable_wf _ Hr) as Hwf.
  exists (ids_of (lawyerContracts s) a), (ids_of (clientContracts s) a).
  split; [done|]. split; [done|].
  assert (Hdis : ∀ i, i ∈ ids_below (totalContracts s) →
            lawyer (contract_at s i) = a → client (contract_at s i) = a → False).
  { intros i Hi Hl Hc. apply elem_of_ids_below in Hi.
    destruct (wf_dense _ Hwf _ Hi) as [c Hc'].
    rewrite (contract_at_lookup _ _ _ Hc') in Hl, Hc.
    destruct (wf_parties _ Hwf _ _ Hc') as (Hne & _). congruence. }
  rewrite (wf_lawyers _ Hwf), (wf_clients _ Hwf). split; [|split].
  - intros ->. subst shown. rewrite shown_ids. rewrite <- filter_either by done.
    erewrite filter_ext_elem; [done|].
    intros i Hi. apply elem_of_ids_below in Hi. simpl.
    rewrite andb_true_iff, party_spec.
    pose proof (proj2 (VaultFacts.exists_below s i Hwf) Hi). tauto.
  - apply shown_no_chain.
  - intros i [Hl Hi]%list_elem_of_filter [Hc _]%list_elem_of_filter.
    by apply (Hdis i).
Qed.


(** X21. The id under which the create form files the handle and the text is
    the id [createContract] returned when [totalContracts] is read in the
    state that call left.  Read before the call it is that id only for the
    very first record, and read after one more creation it is the id of the
    later record. *)
Lemma X21_filed_id msg t cl e p s i s' :
  createContract msg t cl e p s = Ok (i, s') →
  filed_contractId (totalContracts s') = i ∧
  (filed_contractId (totalContracts s) = i ↔ i = 0) ∧
  ∀ msg2 t2 cl2 e2 p2 j s'',
    createContract msg2 t2 cl2 e2 p2 s' = Ok (j, s'') →
    filed_contractId (totalContracts s'') = j ∧ j ≠ i.
Proof.
  assert (Hcreate : ∀ m t0 c0 e0 p0 s0 k s1,
            createContract m t0 c0 e0 p0 s0 = Ok (k, s1) →
            k = totalContracts s0 ∧ totalContracts s1 = totalContracts s0 + 1).
  { intros m t0 c0 e0 p0 s0 k s1. rewrite createContract_unfold.
    destruct (c0 =? 0); [done|]. destruct (c0 =? sender m); [done|].
    destruct (0 <? String.length t0)%nat; [|done].
    destruct (totalContracts s0 <? MAX_UINT256); [|done].
    destruct (fromExternal (sender m) e0 p0); [|done].
    intros [= <- <-]. done. }
  assert (Hfiled : ∀ n, filed_contractId (n + 1) = n).
  { intros n. unfold filed_contractId.
    destruct (N.ltb_spec 0 (n + 1)); lia. }
  intros Hc. apply Hcreate in Hc as [-> Ht]. split; [|split].
  - by rewrite Ht.
  - unfold filed_contractId. destruct (N.ltb_spec 0 (totalContracts s)); lia.
  - intros msg2 t2 cl2 e2 p2 j s'' Hc2. apply Hcreate in Hc2 as [-> Ht2].
    rewrite Ht2, Hfiled, Ht. split; [done|lia].
Qed.

End Facts.

(** ** The properties on the worked scenario *)

Lemma X18_witness :
  StronglySorted shown_before
    (loadContracts true (Some 1) (Some 9) 31337 (Some 2) completed0 []).
Proof.
  exact (proj1 (proj2 (proj2 (X18_list_contents (H := trustingFHE) completed0 1 9
                                31337 2 [] reachable_completed0)))).
Defined.

Lemma X19_witness :
  ∃ asLawyer asClient,
    getLawyerContracts 2 completed0 = Ok (asLawyer, completed0) ∧
    getClientContracts 2 completed0 = Ok (asClient, completed0) ∧
    v_id <$> loadContracts true (Some 2) (Some 9) 31337
               (Some (totalContracts completed0)) completed0 []
      ≡ₚ asLawyer ++ asClient.
Proof.
  destruct (X19_list_matches_indexes (H := trustingFHE) completed0 2 9 31337 []
              reachable_completed0) as (asLawyer & asClient & Hl & Hc & Hp & _).
  exists asLawyer, asClient. split; [exact Hl|]. split; [exact Hc|].
  exact (Hp eq_refl).
Defined.


(** On the chain 1 the same account sees no record and cannot confirm. *)
Example other_chain_not_found :
  handleLawyerConfirm
    (loadContracts true (Some 1) (Some 9) 1 (Some (totalContracts approved0))
                   approved0 [])
    (Some 1) 0 = toast_error "Contract not found".
Proof. reflexivity. Qed.

Lemma X21_witness :
  filed_contractId (totalContracts (created lawyerMsg "NDA" 2 7 initState)) = 0.
Proof.
  exact (proj1 (X21_filed_id (H := trustingFHE) lawyerMsg "NDA" 2 7 [] initState
                  0 (created lawyerMsg "NDA" 2 7 initState) eq_refl)).
Defined.

End Frontend.
